(** * Seat-state reconciliation and change-log engine of librarySeatDetect

    A shallow embedding of the JavaScript front ends
    - [Web/js/main.js]            (push driven: [socket.on("status_update")]),
    - [Web/frontend/js/main.js]   (two revisions: the static one-shot loader
                                   and the timed replay of a frame list),
    and the properties of the normalizer, the transition detection, the
    bounded per-seat log and the summary counters.

    Modelling conventions.
    - JavaScript strings are [string]; [toUpperCase] is modelled on the ASCII
      letters, every other byte is left as it is.  The normalizer is also
      given with the upper-casing function as an argument
      ([processBackendDataWith]), for what holds of the host's own function.
    - A JavaScript object used as a dictionary is a [gmap]; the object
      [status_codes] of a snapshot, which the code only walks with
      [for ... in], is the list of its own properties in iteration order.
    - A status code is the value [JSON.parse] delivers: null, a boolean, an
      integer, a string or an array of these.  [STATUS_MAP[statusCode]]
      turns the code into a property key and answers with the member of
      that name, STATUS_MAP's own or one it inherits from
      [Object.prototype].  Codes that are objects or numbers with a
      fraction are not modelled.
    - A status is the value stored in [seat.status]: one of the strings of
      STATUS_MAP or an inherited member.
    - The log store [currentSeatLogs] is a [gmap] over seat ids.  The ids
      the page stores and asks for come out of the normalizer in upper case
      and never name a member of [Object.prototype] (lemma
      [toUpperCase_not_inherited]); the store is modelled for such ids.
    - The module-level variables are the fields of [State]; the handlers are
      functions from [State] to [State].  Of the page, the state keeps what
      the handlers read or what the summary shows: the text of [#detail-id],
      the contents of [#log-list] and the summary cards.  The elements are
      taken to exist.  The colouring of the seat map and the selection
      highlight ([currentSelectedChair], [currentSelectedSeat]) are never
      read by the modelled code and are left out.
    - The two revisions of [addLogEntry] differ in the bytes between the two
      statuses of a message; the functions that reach it take the separator
      as an argument ([addLogEntryWith] and so on), and the names of the
      source stand for the push revision, those in [Replay] for the replay
      revision. *)

From stdpp Require Import gmap strings list fin_maps pretty.
From Stdlib Require Import Ascii.

Set Warnings "-register-all".

(** ** Strings *)

(** [String.prototype.toUpperCase] on the ASCII range. *)
Definition upper_ascii (c : ascii) : ascii :=
  let n := nat_of_ascii c in
  if (97 <=? n)%nat && (n <=? 122)%nat then ascii_of_nat (n - 32) else c.

Fixpoint toUpperCase (s : string) : string :=
  match s with
  | EmptyString => EmptyString
  | String c s' => String (upper_ascii c) (toUpperCase s')
  end.

(** ** Status codes and statuses *)

(** A status code of a snapshot, as parsed from JSON. *)
Inductive Code :=
  | CNull
  | CBool (b : bool)
  | CNumber (n : Z)
  | CString (s : string)
  | CArray (items : list Code).

(** The property key a code is turned into by [STATUS_MAP[statusCode]]:
    the text of a scalar; for an array the texts of its items joined by
    commas, where null gives the empty text.  (For an integer of more than
    fifteen digits the text the engine computes can differ from the decimal
    numeral given here; both are numerals of many digits and name no
    member.) *)
Fixpoint toPropertyKey (c : Code) : string :=
  match c with
  | CNull => "null"
  | CBool true => "true"
  | CBool false => "false"
  | CNumber n => pretty n
  | CString s => s
  | CArray items =>
      (fix join (l : list Code) : string :=
         match l with
         | [] => ""
         | x :: rest =>
             let text := match x with CNull => "" | _ => toPropertyKey x end in
             match rest with
             | [] => text
             | _ :: _ => text +:+ "," +:+ join rest
             end
         end) items
  end.

(** [const STATUS_MAP = { 1: "Occupied", 2: "On-Hold", 3: "Empty" }]: the own
    members, under their keys. *)
Definition STATUS_MAP : gmap string string :=
  <["1" := "Occupied"]> (<["2" := "On-Hold"]> (<["3" := "Empty"]> ∅)).

(** The names STATUS_MAP answers for through its prototype: the members of
    [Object.prototype]. *)
Definition objectPrototype : list string :=
  ["constructor"; "hasOwnProperty"; "isPrototypeOf"; "propertyIsEnumerable";
   "toLocaleString"; "toString"; "valueOf"; "__proto__";
   "__defineGetter__"; "__defineSetter__"; "__lookupGetter__";
   "__lookupSetter__"].

(** What [seat.status] can hold: a string, or the member of
    [Object.prototype] of the given name. *)
Inductive Status :=
  | VString (s : string)
  | VInherited (name : string).

Coercion VString : string >-> Status.

#[global] Instance Status_eq_dec : EqDecision Status.
Proof. solve_decision. Defined.

(** [STATUS_MAP[key]]; [None] is [undefined]. *)
Definition getProperty (key : string) : option Status :=
  match STATUS_MAP !! key with
  | Some statusString => Some (VString statusString)
  | None =>
      if bool_decide (key ∈ objectPrototype) then Some (VInherited key)
      else None
  end.

(** Truthiness: of these values only the empty string is falsy. *)
Definition truthy (v : Status) : bool :=
  match v with
  | VString EmptyString => false
  | _ => true
  end.

(** The text of a value, as a template literal or a property access with the
    value as key computes it: a string is its own text, [Object.prototype]
    (the member [__proto__]) gives [[object Object]] and a built-in function
    its source text, given here as V8 prints it; the member [constructor]
    is the function [Object]. *)
Definition statusText (v : Status) : string :=
  match v with
  | VString s => s
  | VInherited name =>
      if decide (name = "__proto__") then "[object Object]"
      else "function "
             +:+ (if decide (name = "constructor") then "Object" else name)
             +:+ "() { [native code] }"
  end.

(** ** Data *)

(** An element of [seatArray]: [{ id, status }]. *)
Record Seat := mkSeat { id : string; status : Status }.

(** An element of a seat's log: [{ t, msg }]. *)
Record LogEntry := mkLog { t : string; msg : string }.

(** The inbound snapshot [{ timestamp, status_codes }]. *)
Record Snapshot := mkSnapshot {
  timestamp : string;
  status_codes : list (string * Code)
}.

(** The result [{ seatArray, timestamp }] of [processBackendData]. *)
Record Processed := mkProcessed {
  seatArray : list Seat;
  p_timestamp : string
}.

#[global] Instance Seat_eq_dec : EqDecision Seat.
Proof. solve_decision. Defined.
#[global] Instance LogEntry_eq_dec : EqDecision LogEntry.
Proof. solve_decision. Defined.

(** ** The normalizer *)

(** One round of the [for (const seatId in statusCodes)] loop: the entry is
    pushed when [STATUS_MAP[statusCode]] is a truthy value.  [upper] is
    [String.prototype.toUpperCase]. *)
Definition pushSeatWith (upper : string → string) (acc : list Seat)
    (kv : string * Code) : list Seat :=
  let seatId := kv.1 in
  let statusCode := kv.2 in
  match getProperty (toPropertyKey statusCode) with
  | Some statusString =>
      if truthy statusString
      then acc ++ [mkSeat (upper seatId) statusString]
      else acc
  | None => acc
  end.

Definition processBackendDataWith (upper : string → string)
    (jsonObject : Snapshot) : Processed :=
  let timestamp := timestamp jsonObject in
  let statusCodes := status_codes jsonObject in
  mkProcessed (foldl (pushSeatWith upper) [] statusCodes) timestamp.

Definition pushSeat : list Seat → string * Code → list Seat :=
  pushSeatWith toUpperCase.

Definition processBackendData : Snapshot → Processed :=
  processBackendDataWith toUpperCase.

(** ** The summary cards *)

(** [const counts = { Occupied: 0, "On-Hold": 0, Empty: 0, Total: data.length }] *)
Definition initCounts (data : list Seat) : gmap string nat :=
  <["Occupied" := 0]> (<["On-Hold" := 0]> (<["Empty" := 0]>
    (<["Total" := length data]> ∅))).

(** [if (hasOwnProperty.call(counts, seat.status)) counts[seat.status]++];
    the key is the text of the status. *)
Definition countSeat (counts : gmap string nat) (seat : Seat) : gmap string nat :=
  let key := statusText (status seat) in
  match counts !! key with
  | Some n => <[key := S n]> counts
  | None => counts
  end.

Definition tally (data : list Seat) : gmap string nat :=
  foldl countSeat (initCounts data) data.

(** What [updateSummaryCards] writes on the page. *)
Record Summary := mkSummary {
  count_occupied : nat;
  count_on_hold : nat;
  count_empty : nat;
  total : nat;
  last_updated_text : string
}.

Definition updateSummaryCards (data : list Seat) (timestamp : string) : Summary :=
  let counts := tally data in
  mkSummary (counts !!! "Occupied") (counts !!! "On-Hold") (counts !!! "Empty")
            (counts !!! "Total") ("Last Updated: " +:+ timestamp).

(** ** The page and the module-level state *)

(** Contents of [#log-list]: the placeholder written by [resetSeatDetails],
    the placeholder written by [renderLogList] for an empty log, or the
    rendered entries. *)
Inductive Panel :=
  | PickSeat
  | NoHistory
  | Entries (es : list LogEntry).

Record Page := mkPage {
  detail_id : string;            (* textContent of #detail-id *)
  log_list : Panel;              (* contents of #log-list *)
  cards : option Summary         (* None: as shipped, before the first update *)
}.

Record State := mkState {
  currentSeats : list Seat;
  lastTimestamp : string;
  currentSeatLogs : gmap string (list LogEntry);
  page : Page
}.

(** [resetSeatDetails()] *)
Definition resetSeatDetails (pg : Page) : Page :=
  mkPage "Klik salah satu kursi" PickSeat (cards pg).

(** The state once the script is loaded and [DOMContentLoaded] has run
    [resetSeatDetails]. *)
Definition initialState : State :=
  mkState [] "---" ∅ (resetSeatDetails (mkPage "" PickSeat None)).

(** ** The seat log store *)

(** [const logs = currentSeatLogs[seatId] || []] *)
Definition logsOf (store : gmap string (list LogEntry)) (seatId : string)
  : list LogEntry :=
  default [] (store !! seatId).

(** [renderLogList(seatId)]: what is written into [#log-list]. *)
Definition renderLogList (store : gmap string (list LogEntry)) (seatId : string)
  : Panel :=
  let logs := logsOf store seatId in
  if bool_decide (length logs = 0) then NoHistory else Entries logs.

(** The separator of the template literal in [addLogEntry] of
    [Web/js/main.js]. *)
Definition arrow : string := " ➝ ".

(** [addLogEntry(seatId, timestamp, oldStatus, newStatus)], with the
    separator [sep] in the template literal. *)
Definition addLogEntryWith (sep : string) (seatId timestamp : string)
    (oldStatus newStatus : Status) (st : State) : State :=
  let message := statusText oldStatus +:+ sep +:+ statusText newStatus in
  (* if (!currentSeatLogs[seatId]) currentSeatLogs[seatId] = [] *)
  let store1 :=
    match currentSeatLogs st !! seatId with
    | None => <[seatId := []]> (currentSeatLogs st)
    | Some _ => currentSeatLogs st
    end in
  (* currentSeatLogs[seatId].unshift({ t, msg }) *)
  let store2 := alter (cons (mkLog timestamp message)) seatId store1 in
  (* if (length > 5) currentSeatLogs[seatId] = currentSeatLogs[seatId].slice(0, 5) *)
  let store3 :=
    if bool_decide (5 < length (logsOf store2 seatId))
    then alter (take 5) seatId store2
    else store2 in
  (* if (idSpan && idSpan.textContent === seatId) renderLogList(seatId) *)
  let pg := page st in
  let pg' :=
    if bool_decide (detail_id pg = seatId)
    then mkPage (detail_id pg) (renderLogList store3 seatId) (cards pg)
    else pg in
  mkState (currentSeats st) (lastTimestamp st) store3 pg'.

Definition addLogEntry : string → string → Status → Status → State → State :=
  addLogEntryWith arrow.

(** The entry [addLogEntry] builds. *)
Definition logEntryWith (sep : string) (timestamp : string)
    (oldStatus newStatus : Status) : LogEntry :=
  mkLog timestamp (statusText oldStatus +:+ sep +:+ statusText newStatus).

Definition logEntry : string → Status → Status → LogEntry := logEntryWith arrow.

(** [showSeatDetails(seatId)], reached from [handleSeatClick]. *)
Definition showSeatDetails (seatId : string) (st : State) : State :=
  mkState (currentSeats st) (lastTimestamp st) (currentSeatLogs st)
    (mkPage seatId (renderLogList (currentSeatLogs st) seatId) (cards (page st))).

(** ** One reconciliation *)

(** [currentSeats.find((s) => s.id === newSeat.id)] *)
Definition findSeat (seats : list Seat) (seatId : string) : option Seat :=
  find (λ s, bool_decide (id s = seatId)) seats.

(** The body of [seatArray.forEach((newSeat) => ...)], the same in the push
    handler and in [runUpdateStep]. *)
Definition logChangeWith (sep : string) (timestamp : string) (st : State)
    (newSeat : Seat) : State :=
  match findSeat (currentSeats st) (id newSeat) with
  | Some oldSeat =>
      if bool_decide (status oldSeat ≠ status newSeat) then
        if bool_decide (status newSeat = "Occupied")
        then addLogEntryWith sep (id newSeat) timestamp
               (status oldSeat) (status newSeat) st
        else st
      else st
  | None => st
  end.

Definition logChange : string → State → Seat → State := logChangeWith arrow.

(** The assignments and the summary update that end a reconciliation:
    [currentSeats = seatArray; lastTimestamp = timestamp;
     updateSummaryCards(currentSeats, lastTimestamp)]. *)
Definition commit (p : Processed) (st : State) : State :=
  mkState (seatArray p) (p_timestamp p) (currentSeatLogs st)
    (mkPage (detail_id (page st)) (log_list (page st))
       (Some (updateSummaryCards (seatArray p) (p_timestamp p)))).

(** Detection, logging and commit for an already normalized snapshot. *)
Definition reconcileWith (sep : string) (p : Processed) (st : State) : State :=
  commit p (foldl (logChangeWith sep (p_timestamp p)) st (seatArray p)).

Definition reconcile : Processed → State → State := reconcileWith arrow.

(** *** Push driven: [Web/js/main.js] *)
Module Push.

(** What the page can deliver to the script: a pushed snapshot or a click
    on a seat. *)
Inductive Event :=
  | StatusUpdate (data : Snapshot)
  | SeatClick (seatId : string).

(** [socket.on("status_update", (data) => ...)], with the upper-casing
    function of the host as an argument. *)
Definition status_updateWith (upper : string → string) (data : Snapshot)
    (st : State) : State :=
  reconcile (processBackendDataWith upper data) st.

Definition handleWith (upper : string → string) (st : State) (e : Event)
  : State :=
  match e with
  | StatusUpdate data => status_updateWith upper data st
  | SeatClick seatId => showSeatDetails seatId st
  end.

Definition runWith (upper : string → string) (es : list Event) : State :=
  foldl (handleWith upper) initialState es.

Definition status_update : Snapshot → State → State :=
  status_updateWith toUpperCase.

Definition handle : State → Event → State := handleWith toUpperCase.

Definition run : list Event → State := runWith toUpperCase.

End Push.

(** *** Static loader: first revision of [Web/frontend/js/main.js] *)
Module Static.

(** The callback of [fetchSeatStatusFromBackend().then(...)] in the
    [DOMContentLoaded] handler. *)
Definition seedLog (timestamp : string) (store : gmap string (list LogEntry))
    (seat : Seat) : gmap string (list LogEntry) :=
  let store1 :=
    match store !! id seat with
    | None => <[id seat := []]> store
    | Some _ => store
    end in
  if bool_decide (length (logsOf store1 (id seat)) = 0)
  then alter (λ l : list LogEntry, l ++ [mkLog timestamp ("Status set to " +:+ statusText (status seat))])
             (id seat) store1
  else store1.

Definition initialLoad (p : Processed) (st : State) : State :=
  let store := foldl (seedLog (p_timestamp p)) (currentSeatLogs st) (seatArray p) in
  mkState (seatArray p) (p_timestamp p) store
    (mkPage (detail_id (page st)) (log_list (page st))
       (Some (updateSummaryCards (seatArray p) (p_timestamp p)))).

End Static.

(** *** Timed replay: second revision of [Web/frontend/js/main.js] *)
Module Replay.

Record Sim := mkSim {
  app : State;
  simulationData : list Snapshot;
  currentIndex : nat;
  simulationInterval : bool      (* true once [setInterval] has been called *)
}.

Definition initialSim : Sim := mkSim initialState [] 0 false.

(** The separator of the template literal in [addLogEntry] of this
    revision. *)
Definition arrow : string := " âž ".

Definition addLogEntry : string → string → Status → Status → State → State :=
  addLogEntryWith arrow.

Definition logEntry : string → Status → Status → LogEntry := logEntryWith arrow.

Definition reconcile : Processed → State → State := reconcileWith arrow.

(** The next value of [currentIndex]: [currentIndex++] and the reset when
    [currentIndex >= simulationData.length]. *)
Definition advance (frames : list Snapshot) (i : nat) : nat :=
  if bool_decide (length frames ≤ S i) then 0 else S i.

(** [runUpdateStep] on a frame that exists. *)
Definition applyFrame (currentFrame : Snapshot) (s : Sim) : Sim :=
  mkSim (reconcile (processBackendData currentFrame) (app s))
        (simulationData s)
        (advance (simulationData s) (currentIndex s))
        (simulationInterval s).

(** [runUpdateStep()].  [None]: [simulationData[currentIndex]] is
    [undefined] and [processBackendData] throws on [jsonObject.timestamp],
    before anything has been assigned. *)
Definition runUpdateStep (s : Sim) : option Sim :=
  match simulationData s !! currentIndex s with
  | Some currentFrame => Some (applyFrame currentFrame s)
  | None => None
  end.

(** [startSimulationLoop()] *)
Definition startSimulationLoop (s : Sim) : Sim :=
  match simulationData s with
  | [] => s
  | firstFrame :: _ =>
      let p := processBackendData firstFrame in
      mkSim (commit p (app s)) (simulationData s) 1 true
  end.

(** The [then] branch of the loader for an array: store the frames and
    start the loop. *)
Definition load (data : list Snapshot) (s : Sim) : Sim :=
  startSimulationLoop
    (mkSim (app s) data (currentIndex s) (simulationInterval s)).

(** One firing of the interval timer.  An exception thrown by the callback
    ends that firing only; the timer stays armed. *)
Definition tick (s : Sim) : Sim :=
  if simulationInterval s then default s (runUpdateStep s) else s.

Definition ticks (n : nat) (s : Sim) : Sim := Nat.iter n tick s.

(** The frame list loaded into the fresh page, then [n] timer firings. *)
Definition replay (frames : list Snapshot) (n : nat) : Sim :=
  ticks n (load frames initialSim).

End Replay.

(** ** Transition events *)

(** The transition events as section 4.2 of the spec words them: the events
    of one tick, one for every seat of the new list whose id is found in the
    held list with a different status.  The code never builds this list; the
    lemma [foldl_logChange] relates it to the loop of a reconciliation. *)
Record TransitionEvent := mkEvent {
  ev_seat : string;
  ev_time : string;
  ev_from : Status;
  ev_to : Status
}.

Definition transitionOf (held : list Seat) (timestamp : string) (newSeat : Seat)
  : option TransitionEvent :=
  match findSeat held (id newSeat) with
  | Some oldSeat =>
      if bool_decide (status oldSeat ≠ status newSeat)
      then Some (mkEvent (id newSeat) timestamp (status oldSeat) (status newSeat))
      else None
  | None => None
  end.

Definition transitions (held new : list Seat) (timestamp : string)
  : list TransitionEvent :=
  omap (transitionOf held timestamp) new.

(** Section 4.5, step 3: record the events whose target is Occupied. *)
Definition recordEventWith (sep : string) (st : State) (e : TransitionEvent)
  : State :=
  addLogEntryWith sep (ev_seat e) (ev_time e) (ev_from e) (ev_to e) st.

Definition recordEvent : State → TransitionEvent → State :=
  recordEventWith arrow.

Definition toOccupied (e : TransitionEvent) : Prop :=
  ev_to e = "Occupied".

#[global] Instance toOccupied_dec (e : TransitionEvent) : Decision (toOccupied e).
Proof. unfold toOccupied. apply _. Defined.

(** The events of one tick against the state [st]. *)
Definition tickEvents (p : Processed) (st : State) : list TransitionEvent :=
  transitions (currentSeats st) (seatArray p) (p_timestamp p).

(** ** The normalizer, stated entry by entry *)

(** The key of the code is one of STATUS_MAP's own: the numbers 1, 2 and 3,
    and with them every code of the same key, such as the string "2" or the
    array [3]. *)
Definition validCode (statusCode : Code) : Prop :=
  toPropertyKey statusCode = "1" ∨ toPropertyKey statusCode = "2"
  ∨ toPropertyKey statusCode = "3".

#[global] Instance validCode_dec (c : Code) : Decision (validCode c).
Proof. unfold validCode. apply _. Defined.

(** The fixed map from such codes to statuses. *)
Definition codeStatus (statusCode : Code) : string :=
  if decide (toPropertyKey statusCode = "1") then "Occupied"
  else if decide (toPropertyKey statusCode = "2") then "On-Hold"
  else "Empty".

(** The key of the code names a member of [Object.prototype]. *)
Definition inheritedCode (statusCode : Code) : Prop :=
  toPropertyKey statusCode ∈ objectPrototype.

#[global] Instance inheritedCode_dec (c : Code) : Decision (inheritedCode c).
Proof. unfold inheritedCode. apply _. Defined.

Definition validEntries (raw : Snapshot) : list (string * Code) :=
  filter (λ kv, validCode kv.2) (status_codes raw).

(** The normalized entry of one raw entry, if it is kept. *)
Definition normalizedEntryWith (upper : string → string) (kv : string * Code)
  : option Seat :=
  mkSeat (upper kv.1) <$> getProperty (toPropertyKey kv.2).

Definition knownStatus (v : Status) : Prop :=
  v = "Occupied" ∨ v = "On-Hold" ∨ v = "Empty".

#[global] Instance knownStatus_dec (v : Status) : Decision (knownStatus v).
Proof. unfold knownStatus. apply _. Defined.

Definition inheritedStatus (v : Status) : Prop :=
  ∃ name, name ∈ objectPrototype ∧ v = VInherited name.

(** A string of ASCII characters only, and one without the letters a to z. *)
Fixpoint isAscii (s : string) : bool :=
  match s with
  | EmptyString => true
  | String c s' => (nat_of_ascii c <? 128)%nat && isAscii s'
  end.

Fixpoint noLowerCase (s : string) : bool :=
  match s with
  | EmptyString => true
  | String c s' =>
      negb ((97 <=? nat_of_ascii c)%nat && (nat_of_ascii c <=? 122)%nat)
      && noLowerCase s'
  end.

(** Number of seats of [data] whose status is [k], whose status has the
    text [k], and whose status is none of the three. *)
Definition countStatus (k : Status) (data : list Seat) : nat :=
  length (filter (λ seat, status seat = k) data).

Definition countKey (k : string) (data : list Seat) : nat :=
  length (filter (λ seat, statusText (status seat) = k) data).


(** Every stored log has at most five entries. *)
Definition logBounded (store : gmap string (list LogEntry)) : Prop :=
  map_Forall (λ _ logs, length logs ≤ 5) store.

(** An entry written for a transition into Occupied. *)
Definition occupiedEntryWith (sep : string) (e : LogEntry) : Prop :=
  ∃ timestamp oldStatus, e = logEntryWith sep timestamp oldStatus "Occupied".

Definition onlyOccupiedWith (sep : string)
    (store : gmap string (list LogEntry)) : Prop :=
  map_Forall (λ _ logs, Forall (occupiedEntryWith sep) logs) store.

(** Seats with the same id carry the same status. *)
Definition consistent (seats : list Seat) : Prop :=
  ∀ a b, a ∈ seats → b ∈ seats → id a = id b → status a = status b.

(** ** Further functions of the front ends *)

(** [getStatusClass(status)] *)
Definition getStatusClass (s : Status) : string :=
  if decide (s = "Occupied") then "occupied-status"
  else if decide (s = "On-Hold") then "on-hold-status"
  else if decide (s = "Empty") then "empty-status"
  else "".

(** [String.prototype.toLowerCase] on the ASCII range. *)
Definition lower_ascii (c : ascii) : ascii :=
  let n := nat_of_ascii c in
  if (65 <=? n)%nat && (n <=? 90)%nat then ascii_of_nat (n + 32) else c.

Fixpoint toLowerCase (s : string) : string :=
  match s with
  | EmptyString => EmptyString
  | String c s' => String (lower_ascii c) (toLowerCase s')
  end.

(** [s.startsWith(sub)] and [s.includes(sub)]. *)
Fixpoint startsWith (s sub : string) : bool :=
  match sub, s with
  | EmptyString, _ => true
  | String _ _, EmptyString => false
  | String a sub', String b s' => bool_decide (a = b) && startsWith s' sub'
  end.

Fixpoint includes (s sub : string) : bool :=
  startsWith s sub
  || match s with
     | EmptyString => false
     | String _ s' => includes s' sub
     end.

(** The entry of a transition event, as [recordEvent] stores it. *)
Definition eventEntry (e : TransitionEvent) : LogEntry :=
  logEntry (ev_time e) (ev_from e) (ev_to e).

(** The fields a reconciliation reads and writes, the sidebar apart. *)
Definition sameCore (st1 st2 : State) : Prop :=
  currentSeats st1 = currentSeats st2
  ∧ lastTimestamp st1 = lastTimestamp st2
  ∧ currentSeatLogs st1 = currentSeatLogs st2
  ∧ cards (page st1) = cards (page st2).

(** The sidebar shows the stored log of the seat named in [#detail-id]. *)
Definition panelFresh (st : State) : Prop :=
  log_list (page st) = renderLogList (currentSeatLogs st) (detail_id (page st)).


(** Every held seat has a status the normalizer can produce: one of the
    three strings or an inherited member. *)
Definition heldNormal (st : State) : Prop :=
  Forall (λ seat, knownStatus (status seat) ∨ inheritedStatus (status seat))
    (currentSeats st).

(** *** The whole socket client of [Web/js/main.js] *)
Module Client.

(** The reconciliation state together with what the other handlers touch:
    the text of [#last-updated-text] as last written by the script, the
    alerts shown and the messages emitted on the socket. *)
Record Session := mkSession {
  core : State;
  statusText : option string;
  alerts : list string;
  emitted : list string
}.

Definition initialSession : Session := mkSession initialState None [] [].

(** [updateConnectionStatus(message, isConnected)] *)
Definition updateConnectionStatus (message : string) (isConnected : bool)
    (c : Session) : Session :=
  let icon := if isConnected then "🟢" else "🔴" in
  mkSession (core c)
    (Some (icon +:+ " " +:+ message +:+ " | Last Updated: "
             +:+ lastTimestamp (core c)))
    (alerts c) (emitted c).

(** The events the socket and the page deliver. *)
Inductive Event :=
  | Connect
  | Disconnect
  | ConnectionStatus
  | DetectionStarted
  | DetectionStopped
  | ServerError (message : string)
  | StatusUpdate (data : Snapshot)
  | SeatClick (seatId : string).

Definition handle (c : Session) (e : Event) : Session :=
  match e with
  | Connect =>
      let c1 := updateConnectionStatus "Connected" true c in
      mkSession (core c1) (statusText c1) (alerts c1)
        (emitted c1 ++ ["start_detection"])
  | Disconnect => updateConnectionStatus "Disconnected" false c
  | ConnectionStatus => c
  | DetectionStarted => updateConnectionStatus "Detection Active" true c
  | DetectionStopped => updateConnectionStatus "Detection Stopped" false c
  | ServerError message =>
      if negb (includes (toLowerCase message) "already running")
      then mkSession (core c) (statusText c)
             (alerts c ++ ["Error: " +:+ message]) (emitted c)
      else c
  | StatusUpdate data =>
      let st' := Push.status_update data (core c) in
      mkSession st' (last_updated_text <$> cards (page st'))
        (alerts c) (emitted c)
  | SeatClick seatId =>
      mkSession (showSeatDetails seatId (core c)) (statusText c)
        (alerts c) (emitted c)
  end.

Definition run (es : list Event) : Session := foldl handle initialSession es.

(** The events that reach the reconciliation state. *)
Definition toPush (e : Event) : option Push.Event :=
  match e with
  | StatusUpdate data => Some (Push.StatusUpdate data)
  | SeatClick seatId => Some (Push.SeatClick seatId)
  | _ => None
  end.

End Client.

(** Whether an event of the socket client is a connect. *)
Definition isConnect (e : Client.Event) : Prop :=
  match e with Client.Connect => True | _ => False end.

#[global] Instance isConnect_dec (e : Client.Event) : Decision (isConnect e).
Proof. destruct e; simpl; apply _. Defined.

(** The phrase occurs in the message, in whatever case. *)
Definition mentions (message phrase : string) : Prop :=
  ∃ pre w post, message = pre +:+ w +:+ post ∧ toLowerCase w = phrase.

(** Whether an event of the push page is a pushed snapshot. *)
Definition isUpdate (e : Push.Event) : Prop :=
  match e with Push.StatusUpdate _ => True | Push.SeatClick _ => False end.

#[global] Instance isUpdate_dec (e : Push.Event) : Decision (isUpdate e).
Proof. destruct e; simpl; apply _. Defined.

(** A pushed snapshot none of whose codes names an inherited member; a
    click is no snapshot. *)
Definition cleanUpdate (e : Push.Event) : Prop :=
  match e with
  | Push.StatusUpdate data =>
      Forall (λ kv, ¬ inheritedCode kv.2) (status_codes data)
  | Push.SeatClick _ => True
  end.

(** The tick for [p] in the state [st] calls [addLogEntry] for [seatId]:
    one of its events into Occupied is an event of that seat. *)
Definition recordsFor (seatId : string) (p : Processed) (st : State) : bool :=
  bool_decide (filter (λ e, ev_seat e = seatId)
                 (filter toOccupied (tickEvents p st)) ≠ []).

(** Some tick of the events [es], handled one after the other from the
    state [st], records an entry for [seatId]; [upper] is the upper-casing
    function of the host. *)
Fixpoint everRecorded (upper : string → string) (seatId : string)
    (st : State) (es : list Push.Event) : bool :=
  match es with
  | [] => false
  | e :: es' =>
      match e with
      | Push.StatusUpdate data =>
          recordsFor seatId (processBackendDataWith upper data) st
      | Push.SeatClick _ => false
      end
      || everRecorded upper seatId (Push.handleWith upper st e) es'
  end.

(** * Properties *)

Example normalize_unknown_code :
  seatArray (processBackendData
               (mkSnapshot "08:00:01" [("T1", CNumber 9); ("T2", CNumber 3)]))
  = [mkSeat "T2" "Empty"].
Proof. vm_compute. reflexivity. Qed.

(** ** Normalizer *)

Lemma getProperty_cases (key : string) :
  getProperty key
  = if decide (key = "1") then Some (VString "Occupied")
    else if decide (key = "2") then Some (VString "On-Hold")
    else if decide (key = "3") then Some (VString "Empty")
    else if bool_decide (key ∈ objectPrototype) then Some (VInherited key)
    else None.
Proof.
  unfold getProperty, STATUS_MAP.
  rewrite !lookup_insert, lookup_empty.
  repeat case_decide; subst; try reflexivity; congruence.
Qed.

Lemma getProperty_valid (c : Code) :
  validCode c → getProperty (toPropertyKey c) = Some (VString (codeStatus c)).
Proof.
  unfold validCode, codeStatus. rewrite getProperty_cases.
  intros [H|[H|H]]; rewrite H; reflexivity.
Qed.

Lemma getProperty_other (c : Code) :
  ¬ validCode c → ¬ inheritedCode c → getProperty (toPropertyKey c) = None.
Proof.
  unfold validCode, inheritedCode. rewrite getProperty_cases. intros Hv Hi.
  rewrite !decide_False by (intros H; apply Hv; auto).
  by rewrite bool_decide_eq_false_2.
Qed.

Lemma getProperty_normal (key : string) (v : Status) :
  getProperty key = Some v → knownStatus v ∨ inheritedStatus v.
Proof.
  rewrite getProperty_cases. unfold knownStatus, inheritedStatus.
  repeat case_decide; try (intros [= <-]; auto; fail).
  case_bool_decide; [|done]. intros [= <-]. right. by exists key.
Qed.

Lemma getProperty_truthy (key : string) (v : Status) :
  getProperty key = Some v → truthy v = true.
Proof.
  intros [[->|[->| ->]]|(name & _ & ->)]%getProperty_normal; reflexivity.
Qed.

Lemma pushSeatWith_normalizedEntry (upper : string → string)
    (acc : list Seat) (kv : string * Code) :
  pushSeatWith upper acc kv = acc ++ option_list (normalizedEntryWith upper kv).
Proof.
  unfold pushSeatWith, normalizedEntryWith.
  destruct (getProperty (toPropertyKey kv.2)) as [v|] eqn:E; simpl.
  - by rewrite (getProperty_truthy _ _ E).
  - by rewrite app_nil_r.
Qed.

Lemma foldl_pushSeatWith (upper : string → string) (l : list (string * Code))
    (acc : list Seat) :
  foldl (pushSeatWith upper) acc l = acc ++ omap (normalizedEntryWith upper) l.
Proof.
  revert acc. induction l as [|kv l IH]; intros acc; simpl.
  - by rewrite app_nil_r.
  - rewrite IH, pushSeatWith_normalizedEntry, <- app_assoc. f_equal.
    destruct (normalizedEntryWith upper kv); reflexivity.
Qed.

Lemma seatArrayWith_omap (upper : string → string) (raw : Snapshot) :
  seatArray (processBackendDataWith upper raw)
  = omap (normalizedEntryWith upper) (status_codes raw).
Proof. unfold processBackendDataWith. simpl. by rewrite foldl_pushSeatWith. Qed.

Lemma seatArray_omap (raw : Snapshot) :
  seatArray (processBackendData raw)
  = omap (normalizedEntryWith toUpperCase) (status_codes raw).
Proof. apply seatArrayWith_omap. Qed.

Lemma seatArray_normal (upper : string → string) (raw : Snapshot)
    (seat : Seat) :
  seat ∈ seatArray (processBackendDataWith upper raw) →
  knownStatus (status seat) ∨ inheritedStatus (status seat).
Proof.
  rewrite seatArrayWith_omap, list_elem_of_omap.
  intros ([k c] & _ & H). unfold normalizedEntryWith in H. simpl in H.
  destruct (getProperty (toPropertyKey c)) as [v|] eqn:E; simplify_eq/=.
  by eapply getProperty_normal.
Qed.

Lemma omap_normalizedEntryWith (upper : string → string)
    (l : list (string * Code)) :
  Forall (λ kv, ¬ inheritedCode kv.2) l →
  omap (normalizedEntryWith upper) l
  = (λ kv, mkSeat (upper kv.1) (codeStatus kv.2))
      <$> filter (λ kv, validCode kv.2) l.
Proof.
  induction 1 as [|kv l Hkv _ IH]; [done|].
  rewrite filter_cons.
  change (omap (normalizedEntryWith upper) (kv :: l))
    with (match normalizedEntryWith upper kv with
          | Some seat => seat :: omap (normalizedEntryWith upper) l
          | None => omap (normalizedEntryWith upper) l
          end).
  rewrite IH. unfold normalizedEntryWith. case_decide as Hv.
  - by rewrite getProperty_valid.
  - by rewrite getProperty_other.
Qed.

Lemma codeStatus_known (c : Code) : knownStatus (codeStatus c).
Proof. unfold knownStatus, codeStatus. repeat case_decide; auto. Qed.

Lemma seatArray_clean (upper : string → string) (raw : Snapshot) :
  Forall (λ kv, ¬ inheritedCode kv.2) (status_codes raw) →
  seatArray (processBackendDataWith upper raw)
  = (λ kv, mkSeat (upper kv.1) (codeStatus kv.2)) <$> validEntries raw.
Proof.
  intros Hclean. rewrite seatArrayWith_omap.
  by apply omap_normalizedEntryWith.
Qed.

Lemma seatArray_known_clean (upper : string → string) (raw : Snapshot) :
  Forall (λ kv, ¬ inheritedCode kv.2) (status_codes raw) →
  Forall (λ seat, knownStatus (status seat))
    (seatArray (processBackendDataWith upper raw)).
Proof.
  intros Hclean. rewrite seatArray_clean by done.
  apply Forall_fmap, Forall_forall. intros kv _. apply codeStatus_known.
Qed.

(** ** Counters *)

Lemma countSeat_lookup (k : string) (counts : gmap string nat) (seat : Seat) :
  countSeat counts seat !! k
  = (λ n, if decide (statusText (status seat) = k) then S n else n)
      <$> counts !! k.
Proof.
  unfold countSeat. cbv zeta.
  destruct (decide (statusText (status seat) = k)) as [<-|Hne].
  - destruct (counts !! statusText (status seat)) as [n|] eqn:E; simpl.
    + by rewrite lookup_insert_eq.
    + by rewrite E.
  - destruct (counts !! statusText (status seat)) as [n|] eqn:E.
    + rewrite lookup_insert_ne by done. by destruct (counts !! k).
    + by destruct (counts !! k).
Qed.

Lemma foldl_countSeat_lookup (k : string) (data : list Seat)
    (counts : gmap string nat) :
  foldl countSeat counts data !! k = (λ n, n + countKey k data) <$> counts !! k.
Proof.
  revert counts. induction data as [|seat data IH]; intros counts; simpl.
  - unfold countKey. simpl. destruct (counts !! k); simpl; [|done].
    f_equal. lia.
  - rewrite IH, countSeat_lookup. unfold countKey. rewrite filter_cons.
    destruct (counts !! k); simpl; [|done]. f_equal.
    case_decide; simpl; lia.
Qed.

Lemma initCounts_lookup (data : list Seat) :
  initCounts data !! "Occupied" = Some 0
  ∧ initCounts data !! "On-Hold" = Some 0
  ∧ initCounts data !! "Empty" = Some 0
  ∧ initCounts data !! "Total" = Some (length data).
Proof. unfold initCounts. repeat split; by simplify_map_eq. Qed.

(** The text of a value is one of the four keys of [counts] only for the
    string of that name. *)
Lemma statusText_key (v : Status) (k : string) :
  k ∈ ["Occupied"; "On-Hold"; "Empty"; "Total"] →
  statusText v = k ↔ v = VString k.
Proof.
  intros Hk. destruct v as [s|name]; simpl.
  - split; [by intros ->|by intros [= ->]].
  - split; [|done]. intros Htext. exfalso.
    repeat (apply elem_of_cons in Hk as [->|Hk];
            [by repeat case_decide|]).
    by apply not_elem_of_nil in Hk.
Qed.

Lemma countKey_status (k : string) (data : list Seat) :
  k ∈ ["Occupied"; "On-Hold"; "Empty"; "Total"] →
  countKey k data = countStatus k data.
Proof.
  intros Hk. unfold countKey, countStatus.
  induction data as [|seat data IH]; [done|].
  rewrite !filter_cons.
  pose proof (statusText_key (status seat) k Hk) as Hiff.
  repeat case_decide; simpl; try lia; tauto.
Qed.

Lemma tally_lookup (data : list Seat) :
  tally data !! "Occupied" = Some (countStatus "Occupied" data)
  ∧ tally data !! "On-Hold" = Some (countStatus "On-Hold" data)
  ∧ tally data !! "Empty" = Some (countStatus "Empty" data)
  ∧ tally data !! "Total" = Some (length data + countStatus "Total" data).
Proof.
  unfold tally. rewrite !foldl_countSeat_lookup.
  destruct (initCounts_lookup data) as (-> & -> & -> & ->).
  rewrite !countKey_status by set_solver. done.
Qed.





Lemma summary_counts (data : list Seat) (timestamp : string) :
  updateSummaryCards data timestamp
  = mkSummary (countStatus "Occupied" data) (countStatus "On-Hold" data)
      (countStatus "Empty" data) (length data + countStatus "Total" data)
      ("Last Updated: " +:+ timestamp).
Proof.
  unfold updateSummaryCards.
  destruct (tally_lookup data) as (Ho & Hh & He & Ht).
  by rewrite (lookup_total_correct _ _ _ Ho), (lookup_total_correct _ _ _ Hh),
    (lookup_total_correct _ _ _ He), (lookup_total_correct _ _ _ Ht).
Qed.

(** ** Upper-casing *)

Lemma upper_ascii_noLower (c : ascii) :
  negb ((97 <=? nat_of_ascii (upper_ascii c))%nat
        && (nat_of_ascii (upper_ascii c) <=? 122)%nat) = true.
Proof. destruct c as [[] [] [] [] [] [] [] []]; reflexivity. Qed.

Lemma lower_upper_ascii (c : ascii) :
  lower_ascii (upper_ascii c) = lower_ascii c.
Proof. destruct c as [[] [] [] [] [] [] [] []]; reflexivity. Qed.

Lemma noLowerCase_toUpperCase (s : string) : noLowerCase (toUpperCase s) = true.
Proof.
  induction s as [|c s IH]; [done|].
  change (negb ((97 <=? nat_of_ascii (upper_ascii c))%nat
                && (nat_of_ascii (upper_ascii c) <=? 122)%nat)
          && noLowerCase (toUpperCase s) = true).
  by rewrite upper_ascii_noLower, IH.
Qed.

Lemma toLowerCase_toUpperCase (s : string) :
  toLowerCase (toUpperCase s) = toLowerCase s.
Proof.
  induction s as [|c s IH]; [done|].
  change (String (lower_ascii (upper_ascii c)) (toLowerCase (toUpperCase s))
          = String (lower_ascii c) (toLowerCase s)).
  by rewrite lower_upper_ascii, IH.
Qed.

Lemma validCode_number (n : Z) :
  validCode (CNumber n) ↔ n = 1%Z ∨ n = 2%Z ∨ n = 3%Z.
Proof.
  unfold validCode. simpl.
  change "1" with (pretty 1%Z). change "2" with (pretty 2%Z).
  change "3" with (pretty 3%Z).
  split; intros [H|[H|H]]; auto using f_equal;
    apply (inj pretty) in H; auto.
Qed.

(** The normalizer over the upper-casing function of the host, of which it
    is only taken that on strings of ASCII characters it replaces the
    letters a to z by A to Z. *)
Section HostUpperCase.
Variable upper : string → string.
Hypothesis upper_ascii_strings :
  ∀ s, isAscii s = true → upper s = toUpperCase s.

(** C6.  For a snapshot none of whose codes has the name of an inherited
    member as its key, the normalizer keeps exactly the entries whose code
    has the key 1, 2 or 3, in their order: the numbers 1, 2 and 3, and with
    them the strings and the one-item arrays of the same key.  The status
    is Occupied, On-Hold or Empty by that key and the id is the raw key in
    upper case; any other entry is left out and nothing fails.  The
    snapshot {T1: 9, T2: 3} gives the single entry T2, Empty and a total
    of 1. *)
Theorem normalizer_keeps_keyed_codes (raw : Snapshot) :
  Forall (λ kv, ¬ inheritedCode kv.2) (status_codes raw) →
  seatArray (processBackendDataWith upper raw)
  = (λ kv, mkSeat (upper kv.1) (codeStatus kv.2)) <$> validEntries raw
  ∧ p_timestamp (processBackendDataWith upper raw) = timestamp raw
  ∧ Forall (λ kv, isAscii kv.1 = true →
                  noLowerCase (upper kv.1) = true
                  ∧ toLowerCase (upper kv.1) = toLowerCase kv.1)
      (status_codes raw)
  ∧ (∀ n : Z, validCode (CNumber n) ↔ n = 1%Z ∨ n = 2%Z ∨ n = 3%Z)
  ∧ (validCode (CString "2") ∧ validCode (CArray [CNumber 3]))
  ∧ (codeStatus (CNumber 1) = "Occupied" ∧ codeStatus (CNumber 2) = "On-Hold"
     ∧ codeStatus (CNumber 3) = "Empty")
  ∧ processBackendDataWith upper
      (mkSnapshot "08:00:01" [("T1", CNumber 9); ("T2", CNumber 3)])
    = mkProcessed [mkSeat "T2" "Empty"] "08:00:01"
  ∧ processBackendDataWith upper
      (mkSnapshot "08:00:02" [("t1", CNumber 1)])
    = mkProcessed [mkSeat "T1" "Occupied"] "08:00:02"
  ∧ total (updateSummaryCards [mkSeat "T2" "Empty"] "08:00:01") = 1.
Proof.
  intros Hclean.
  split. { rewrite seatArrayWith_omap. by apply omap_normalizedEntryWith. }
  split. { reflexivity. }
  split.
  { apply Forall_forall. intros kv _ Hascii.
    rewrite (upper_ascii_strings _ Hascii).
    split; [apply noLowerCase_toUpperCase|apply toLowerCase_toUpperCase]. }
  split. { apply validCode_number. }
  split. { split; vm_compute; auto. }
  split. { by split_and!. }
  split.
  { unfold processBackendDataWith. simpl. unfold pushSeatWith. simpl.
    by rewrite (upper_ascii_strings "T2"). }
  split.
  { unfold processBackendDataWith. simpl. unfold pushSeatWith. simpl.
    by rewrite (upper_ascii_strings "t1"). }
  vm_compute. reflexivity.
Qed.

End HostUpperCase.

Lemma normalizer_keeps_keyed_codes_witness :
  let raw := mkSnapshot "08:00:01"
               [("t1", CNumber 1); ("t2", CString "2"); ("T3", CNumber 9);
                ("t4", CArray [CNumber 3])] in
  seatArray (processBackendData raw)
  = [mkSeat "T1" "Occupied"; mkSeat "T2" "On-Hold"; mkSeat "T4" "Empty"].
Proof.
  intros raw.
  assert (Forall (λ kv, ¬ inheritedCode kv.2) (status_codes raw)) as Hclean.
  { apply (bool_decide_unpack _). vm_compute. exact I. }
  unfold processBackendData.
  rewrite (proj1 (normalizer_keeps_keyed_codes toUpperCase (λ s _, eq_refl)
                    raw Hclean)).
  vm_compute. reflexivity.
Defined.

(** The claim of C6 that only codes in {1, 2, 3} are kept fails for a code
    of the same key: the one-item array [3] is no such code, yet the seat
    is kept, as Empty. *)
Lemma normalizer_keeps_array_code :
  ¬ (∀ (raw : Snapshot) (seat : Seat),
       seat ∈ seatArray (processBackendData raw) →
       ∃ k n, (k, CNumber n) ∈ status_codes raw
              ∧ (n = 1%Z ∨ n = 2%Z ∨ n = 3%Z)
              ∧ id seat = toUpperCase k).
Proof.
  intros H.
  destruct (H (mkSnapshot "08:00:01" [("T1", CArray [CNumber 3])])
              (mkSeat "T1" "Empty")) as (k & n & Hin & _).
  { vm_compute. apply list_elem_of_here. }
  simpl in Hin. apply list_elem_of_singleton in Hin. discriminate.
Qed.




(** C9.  The normalizer does not deduplicate: for the snapshot with the two
    distinct keys t1 and T1 it emits two entries with the same id T1, and
    both are counted in Total and in the counter of their status. *)
Theorem normalizer_keeps_colliding_keys :
  ∃ raw : Snapshot,
    NoDup (status_codes raw).*1
    ∧ seatArray (processBackendData raw)
      = [mkSeat "T1" "Occupied"; mkSeat "T1" "Empty"]
    ∧ updateSummaryCards (seatArray (processBackendData raw)) (timestamp raw)
      = mkSummary 1 0 1 2 "Last Updated: 08:00:01".
Proof.
  exists (mkSnapshot "08:00:01" [("t1", CNumber 1); ("T1", CNumber 3)]).
  split; [|split; vm_compute; reflexivity].
  simpl. apply NoDup_cons. split; [|apply NoDup_singleton].
  rewrite list_elem_of_singleton. discriminate.
Qed.
(** ** The seat log store *)

Section ListFacts.
Context {A B : Type}.

Lemma foldl_preserves (P : A → Prop) (f : A → B → A) (l : list B) (a : A) :
  (∀ a x, P a → P (f a x)) → P a → P (foldl f a l).
Proof.
  intros Hf. revert a. induction l as [|x l IH]; intros a Ha; simpl; auto.
Qed.

Lemma omap_None (f : A → option B) (l : list A) :
  (∀ x, x ∈ l → f x = None) → omap f l = [].
Proof.
  induction l as [|x l IH]; intros Hf; [done|].
  change (omap f (x :: l))
    with (match f x with Some y => y :: omap f l | None => omap f l end).
  rewrite (Hf x) by (by left). apply IH. intros y Hy. apply Hf. by right.
Qed.

End ListFacts.

Lemma status_update_reconcile (data : Snapshot) (st : State) :
  Push.status_update data st = reconcile (processBackendData data) st.
Proof. reflexivity. Qed.

Lemma unshift_store (store : gmap string (list LogEntry)) (seatId : string)
    (e : LogEntry) :
  alter (cons e) seatId
    (match store !! seatId with
     | None => <[seatId := []]> store
     | Some _ => store
     end)
  = <[seatId := e :: logsOf store seatId]> store.
Proof.
  unfold logsOf. apply map_eq. intros k.
  destruct (store !! seatId) as [l|] eqn:E; simpl;
    rewrite lookup_alter, ?lookup_insert; repeat case_decide; subst;
    rewrite ?E; done.
Qed.

Lemma logsOf_insert (store : gmap string (list LogEntry)) (seatId : string)
    (l : list LogEntry) :
  logsOf (<[seatId := l]> store) seatId = l.
Proof. unfold logsOf. by rewrite lookup_insert_eq. Qed.

Lemma addLogEntry_store (sep seatId timestamp : string)
    (oldStatus newStatus : Status) (st : State) :
  currentSeatLogs (addLogEntryWith sep seatId timestamp oldStatus newStatus st)
  = <[seatId := take 5 (logEntryWith sep timestamp oldStatus newStatus
                          :: logsOf (currentSeatLogs st) seatId)]>
      (currentSeatLogs st).
Proof.
  unfold addLogEntryWith, logEntryWith. simpl.
  rewrite unshift_store, logsOf_insert.
  case_bool_decide as Hlen.
  - apply map_eq. intros k. rewrite lookup_alter, !lookup_insert.
    repeat case_decide; done.
  - by rewrite take_ge by (simpl in *; lia).
Qed.

Lemma addLogEntry_logsOf (sep seatId timestamp : string)
    (oldStatus newStatus : Status) (st : State) :
  logsOf (currentSeatLogs
            (addLogEntryWith sep seatId timestamp oldStatus newStatus st))
    seatId
  = take 5 (logEntryWith sep timestamp oldStatus newStatus
              :: logsOf (currentSeatLogs st) seatId).
Proof. by rewrite addLogEntry_store, logsOf_insert. Qed.

Lemma addLogEntry_other (sep seatId other timestamp : string)
    (oldStatus newStatus : Status) (st : State) :
  other ≠ seatId →
  currentSeatLogs (addLogEntryWith sep seatId timestamp oldStatus newStatus st)
    !! other
  = currentSeatLogs st !! other.
Proof. intros Hne. by rewrite addLogEntry_store, lookup_insert_ne. Qed.

Lemma addLogEntry_currentSeats (sep seatId timestamp : string)
    (oldStatus newStatus : Status) (st : State) :
  currentSeats (addLogEntryWith sep seatId timestamp oldStatus newStatus st)
  = currentSeats st.
Proof. reflexivity. Qed.

Lemma logBounded_logsOf (store : gmap string (list LogEntry)) (seatId : string) :
  logBounded store → length (logsOf store seatId) ≤ 5.
Proof.
  intros Hb. unfold logsOf.
  destruct (store !! seatId) as [l|] eqn:E; simpl; [|lia].
  exact (Hb _ _ E).
Qed.

Lemma addLogEntry_bounded (sep seatId timestamp : string)
    (oldStatus newStatus : Status) (st : State) :
  logBounded (currentSeatLogs st) →
  logBounded (currentSeatLogs
                (addLogEntryWith sep seatId timestamp oldStatus newStatus st)).
Proof.
  intros Hb. rewrite addLogEntry_store.
  apply map_Forall_insert_2; [|exact Hb].
  rewrite length_take. lia.
Qed.

Lemma logChange_bounded (sep timestamp : string) (st : State)
    (newSeat : Seat) :
  logBounded (currentSeatLogs st) →
  logBounded (currentSeatLogs (logChangeWith sep timestamp st newSeat)).
Proof.
  intros Hb. unfold logChangeWith.
  destruct (findSeat _ _); [|done].
  repeat case_bool_decide; try done. by apply addLogEntry_bounded.
Qed.

Lemma reconcile_bounded (sep : string) (p : Processed) (st : State) :
  logBounded (currentSeatLogs st) →
  logBounded (currentSeatLogs (reconcileWith sep p st)).
Proof.
  intros Hb. unfold reconcileWith, commit. simpl.
  apply (foldl_preserves (λ st, logBounded (currentSeatLogs st))); [|done].
  intros. by apply logChange_bounded.
Qed.

(** A property of the log store that holds of the empty store and survives
    a reconciliation holds in every state the push handler, and the replay
    timer, can reach. *)
Section StoreInvariant.
Variable Inv : gmap string (list LogEntry) → Prop.
Variable sep : string.
Hypothesis Inv_empty : Inv ∅.
Hypothesis Inv_reconcile :
  ∀ p st, Inv (currentSeatLogs st)
          → Inv (currentSeatLogs (reconcileWith sep p st)).

Lemma push_run_invariant (es : list Push.Event) :
  sep = arrow → Inv (currentSeatLogs (Push.run es)).
Proof.
  intros Hsep. subst sep. unfold Push.run, Push.runWith.
  change (Push.handleWith toUpperCase) with Push.handle.
  apply (foldl_preserves (λ st, Inv (currentSeatLogs st))); [|exact Inv_empty].
  intros st [data|seatId] Hinv.
  - exact (Inv_reconcile (processBackendData data) st Hinv).
  - exact Hinv.
Qed.

Lemma replay_tick_invariant (s : Replay.Sim) :
  sep = Replay.arrow →
  Inv (currentSeatLogs (Replay.app s)) →
  Inv (currentSeatLogs (Replay.app (Replay.tick s))).
Proof.
  intros Hsep Hinv. subst sep. unfold Replay.tick, Replay.runUpdateStep.
  destruct (Replay.simulationInterval s); [|done].
  destruct (_ !! _) as [frame|]; [|done].
  exact (Inv_reconcile (processBackendData frame) (Replay.app s) Hinv).
Qed.

Lemma replay_invariant (frames : list Snapshot) (n : nat) :
  sep = Replay.arrow →
  Inv (currentSeatLogs (Replay.app (Replay.replay frames n))).
Proof.
  intros Hsep. unfold Replay.replay, Replay.ticks.
  induction n as [|n IH]; simpl.
  - unfold Replay.load, Replay.startSimulationLoop. simpl.
    destruct frames; exact Inv_empty.
  - by apply replay_tick_invariant.
Qed.

End StoreInvariant.

Lemma push_run_bounded (es : list Push.Event) :
  logBounded (currentSeatLogs (Push.run es)).
Proof.
  apply (push_run_invariant _ arrow);
    [apply map_Forall_empty|apply reconcile_bounded|done].
Qed.

Lemma replay_bounded (frames : list Snapshot) (n : nat) :
  logBounded (currentSeatLogs (Replay.app (Replay.replay frames n))).
Proof.
  apply (replay_invariant _ Replay.arrow);
    [apply map_Forall_empty|apply reconcile_bounded|done].
Qed.

(** C3.  A seat's log never holds more than five entries, whatever the
    sequence of pushed snapshots and clicks, of replay ticks, or of record
    operations on the store; recording into a log of five keeps the new
    entry and the four newest old ones, the oldest is dropped. *)
Theorem seat_log_at_most_five :
  (∀ (es : list Push.Event) (seatId : string),
     length (logsOf (currentSeatLogs (Push.run es)) seatId) ≤ 5)
  ∧ (∀ (frames : list Snapshot) (n : nat) (seatId : string),
       length (logsOf (currentSeatLogs (Replay.app (Replay.replay frames n)))
                 seatId) ≤ 5)
  ∧ (∀ (calls : list TransitionEvent) (seatId : string),
       length (logsOf (currentSeatLogs (foldl recordEvent initialState calls))
                 seatId) ≤ 5)
  ∧ (∀ (st : State) (seatId timestamp : string) (oldStatus newStatus : Status)
       (e1 e2 e3 e4 e5 : LogEntry),
       logsOf (currentSeatLogs st) seatId = [e1; e2; e3; e4; e5] →
       logsOf (currentSeatLogs
                 (addLogEntry seatId timestamp oldStatus newStatus st)) seatId
       = [logEntry timestamp oldStatus newStatus; e1; e2; e3; e4]).
Proof.
  split_and!.
  - intros. apply logBounded_logsOf, push_run_bounded.
  - intros. apply logBounded_logsOf, replay_bounded.
  - intros. apply logBounded_logsOf.
    apply (foldl_preserves (λ st, logBounded (currentSeatLogs st))).
    + intros. by apply addLogEntry_bounded.
    + apply map_Forall_empty.
  - intros st seatId ts o n e1 e2 e3 e4 e5 Hfull. unfold addLogEntry.
    by rewrite addLogEntry_logsOf, Hfull.
Qed.

Lemma seat_log_at_most_five_witness :
  let full := [mkLog "5" "e"; mkLog "4" "d"; mkLog "3" "c"; mkLog "2" "b";
               mkLog "1" "a"] in
  let st := mkState [] "---" (<["T1" := full]> ∅) (page initialState) in
  logsOf (currentSeatLogs st) "T1" = full
  ∧ logsOf (currentSeatLogs (addLogEntry "T1" "6" "Empty" "Occupied" st)) "T1"
    = [logEntry "6" "Empty" "Occupied"; mkLog "5" "e"; mkLog "4" "d";
       mkLog "3" "c"; mkLog "2" "b"].
Proof.
  intros full st. split; [reflexivity|].
  apply (proj2 (proj2 (proj2 seat_log_at_most_five))
           st "T1" "6" "Empty" "Occupied" _ _ _ _ (mkLog "1" "a")).
  reflexivity.
Defined.

(** C10.  Recording for seat [seatId] leaves the log of every other seat,
    the held seat list and the last timestamp as they were. *)
Theorem addLogEntry_frame (st : State) (seatId other timestamp : string)
    (oldStatus newStatus : Status) :
  other ≠ seatId →
  let st' := addLogEntry seatId timestamp oldStatus newStatus st in
  currentSeatLogs st' !! other = currentSeatLogs st !! other
  ∧ logsOf (currentSeatLogs st') other = logsOf (currentSeatLogs st) other
  ∧ currentSeats st' = currentSeats st
  ∧ lastTimestamp st' = lastTimestamp st.
Proof.
  intros Hne st'. subst st'. unfold logsOf, addLogEntry.
  rewrite addLogEntry_other by done. done.
Qed.

Lemma addLogEntry_frame_witness :
  let st := addLogEntry "T2" "08:00:01" "Empty" "Occupied" initialState in
  let st' := addLogEntry "T1" "08:00:02" "On-Hold" "Occupied" st in
  currentSeatLogs st' !! "T2" = currentSeatLogs st !! "T2"
  ∧ logsOf (currentSeatLogs st') "T2" = logsOf (currentSeatLogs st) "T2"
  ∧ currentSeats st' = currentSeats st
  ∧ lastTimestamp st' = lastTimestamp st.
Proof.
  intros st st'.
  apply (addLogEntry_frame st "T1" "T2" "08:00:02" "On-Hold" "Occupied").
  discriminate.
Defined.

(** ** Transition detection *)

Lemma findSeat_Some (seats : list Seat) (seatId : string) (seat : Seat) :
  findSeat seats seatId = Some seat → seat ∈ seats ∧ id seat = seatId.
Proof.
  unfold findSeat. intros H. apply find_some in H as [Hin Heq].
  split; [by apply list_elem_of_In|]. by apply bool_decide_eq_true in Heq.
Qed.

Lemma findSeat_None (seats : list Seat) (seatId : string) :
  findSeat seats seatId = None ↔ seatId ∉ id <$> seats.
Proof.
  unfold findSeat. split.
  - intros H Hin. apply list_elem_of_fmap in Hin as (seat & -> & Hin).
    apply list_elem_of_In in Hin.
    pose proof (find_none _ _ H _ Hin) as Hf. simpl in Hf.
    by apply bool_decide_eq_false in Hf.
  - intros Hnin. destruct (find _ seats) as [seat|] eqn:E; [|done].
    apply find_some in E as [Hin Heq]. exfalso. apply Hnin.
    apply bool_decide_eq_true in Heq. subst seatId.
    apply list_elem_of_fmap. exists seat. split; [done|].
    by apply list_elem_of_In.
Qed.

Lemma logChange_transition (sep timestamp : string) (st : State)
    (newSeat : Seat) :
  logChangeWith sep timestamp st newSeat
  = match transitionOf (currentSeats st) timestamp newSeat with
    | Some e => if decide (toOccupied e) then recordEventWith sep st e else st
    | None => st
    end.
Proof.
  unfold logChangeWith, transitionOf, toOccupied, recordEventWith.
  destruct (findSeat _ _) as [oldSeat|]; [|done].
  case_bool_decide; [|done]. simpl.
  case_bool_decide; case_decide; done.
Qed.

Lemma logChange_currentSeats (sep timestamp : string) (st : State)
    (newSeat : Seat) :
  currentSeats (logChangeWith sep timestamp st newSeat) = currentSeats st.
Proof.
  rewrite logChange_transition.
  destruct (transitionOf _ _ _); [|done]. by case_decide.
Qed.

(** The loop of a reconciliation records the events into Occupied, in the
    order of the new list. *)
Lemma foldl_logChange (sep timestamp : string) (new : list Seat)
    (st : State) :
  foldl (logChangeWith sep timestamp) st new
  = foldl (recordEventWith sep) st
      (filter toOccupied (transitions (currentSeats st) new timestamp)).
Proof.
  revert st. induction new as [|a new IH]; intros st; [done|].
  simpl. rewrite IH, logChange_currentSeats, logChange_transition.
  unfold transitions.
  change (omap (transitionOf (currentSeats st) timestamp) (a :: new))
    with (match transitionOf (currentSeats st) timestamp a with
          | Some e => e :: omap (transitionOf (currentSeats st) timestamp) new
          | None => omap (transitionOf (currentSeats st) timestamp) new
          end).
  destruct (transitionOf (currentSeats st) timestamp a) as [e|]; [|done].
  rewrite filter_cons. by case_decide.
Qed.

Lemma reconcile_events (sep : string) (p : Processed) (st : State) :
  reconcileWith sep p st
  = commit p (foldl (recordEventWith sep) st
                (filter toOccupied (tickEvents p st))).
Proof. unfold reconcileWith, tickEvents. by rewrite foldl_logChange. Qed.

Lemma recordEvents_other (sep : string) (events : list TransitionEvent)
    (st : State) (seatId : string) :
  (∀ e, e ∈ events → ev_seat e ≠ seatId) →
  currentSeatLogs (foldl (recordEventWith sep) st events) !! seatId
  = currentSeatLogs st !! seatId.
Proof.
  revert st. induction events as [|e events IH]; intros st Hne; [done|].
  simpl. rewrite IH by (intros; apply Hne; by right).
  unfold recordEventWith. apply addLogEntry_other.
  intros Heq. by apply (Hne e); [left|].
Qed.

Lemma transitions_seat (held new : list Seat) (timestamp : string)
    (e : TransitionEvent) :
  e ∈ transitions held new timestamp →
  ∃ oldSeat newSeat,
    newSeat ∈ new ∧ findSeat held (id newSeat) = Some oldSeat
    ∧ status oldSeat ≠ status newSeat
    ∧ e = mkEvent (id newSeat) timestamp (status oldSeat) (status newSeat).
Proof.
  unfold transitions. rewrite list_elem_of_omap.
  intros (newSeat & Hin & Ht). unfold transitionOf in Ht.
  destruct (findSeat held (id newSeat)) as [oldSeat|] eqn:E; [|done].
  case_bool_decide; [|done]. simplify_eq. by exists oldSeat, newSeat.
Qed.

(** A seat whose events of this tick all lead elsewhere than Occupied keeps
    its log, and the held list is replaced by the new one. *)
Lemma reconcile_not_occupied (sep : string) (p : Processed) (st : State)
    (seatId : string) :
  (∀ e, e ∈ tickEvents p st → ev_seat e = seatId → ev_to e ≠ "Occupied") →
  currentSeatLogs (reconcileWith sep p st) !! seatId
  = currentSeatLogs st !! seatId
  ∧ currentSeats (reconcileWith sep p st) = seatArray p.
Proof.
  intros Hev. split; [|done].
  rewrite reconcile_events. simpl. apply recordEvents_other.
  intros e [Hocc He]%list_elem_of_filter Hseat. by apply (Hev e).
Qed.

(** A seat that is not in the held list has no event and keeps its log. *)
Lemma reconcile_first_appearance (sep : string) (p : Processed) (st : State)
    (seatId : string) :
  seatId ∉ id <$> currentSeats st →
  (∀ e, e ∈ tickEvents p st → ev_seat e ≠ seatId)
  ∧ currentSeatLogs (reconcileWith sep p st) !! seatId
    = currentSeatLogs st !! seatId.
Proof.
  intros Hnew.
  assert (∀ e, e ∈ tickEvents p st → ev_seat e ≠ seatId) as Hev.
  { intros e He Heq.
    apply transitions_seat in He as (oldSeat & newSeat & _ & Hf & _ & ->).
    simpl in Heq. subst seatId.
    apply findSeat_None in Hnew. congruence. }
  split; [done|].
  apply reconcile_not_occupied. intros e He Heq. by destruct (Hev e He).
Qed.

(** ** Only transitions into Occupied are logged *)

Lemma addLogEntry_onlyOccupied (sep seatId timestamp : string)
    (oldStatus : Status) (st : State) :
  onlyOccupiedWith sep (currentSeatLogs st) →
  onlyOccupiedWith sep
    (currentSeatLogs
       (addLogEntryWith sep seatId timestamp oldStatus "Occupied" st)).
Proof.
  intros Hb. rewrite addLogEntry_store.
  apply map_Forall_insert_2; [|exact Hb].
  apply Forall_take, Forall_cons. split; [by eexists _, _|].
  unfold logsOf. destruct (currentSeatLogs st !! seatId) as [l|] eqn:E; simpl.
  - exact (Hb _ _ E).
  - constructor.
Qed.

Lemma reconcile_onlyOccupied (sep : string) (p : Processed) (st : State) :
  onlyOccupiedWith sep (currentSeatLogs st) →
  onlyOccupiedWith sep (currentSeatLogs (reconcileWith sep p st)).
Proof.
  intros Hb. unfold reconcileWith, commit. simpl.
  apply (foldl_preserves (λ st, onlyOccupiedWith sep (currentSeatLogs st)));
    [|done].
  clear. intros st newSeat Hb. unfold logChangeWith.
  destruct (findSeat _ _); [|done].
  case_bool_decide; [|done]. case_bool_decide as Hocc; [|done].
  rewrite Hocc. by apply addLogEntry_onlyOccupied.
Qed.

Lemma onlyOccupied_logsOf (sep : string) (store : gmap string (list LogEntry))
    (seatId : string) (entry : LogEntry) :
  onlyOccupiedWith sep store → entry ∈ logsOf store seatId →
  occupiedEntryWith sep entry.
Proof.
  intros Hb. unfold logsOf.
  destruct (store !! seatId) as [l|] eqn:E; simpl.
  - intros Hin. pose proof (Hb _ _ E) as Hl.
    rewrite Forall_forall in Hl. by apply Hl.
  - by intros ?%not_elem_of_nil.
Qed.

Lemma push_run_onlyOccupied (es : list Push.Event) :
  onlyOccupiedWith arrow (currentSeatLogs (Push.run es)).
Proof.
  apply (push_run_invariant _ arrow);
    [apply map_Forall_empty|apply reconcile_onlyOccupied|done].
Qed.

Lemma replay_onlyOccupied (frames : list Snapshot) (n : nat) :
  onlyOccupiedWith Replay.arrow
    (currentSeatLogs (Replay.app (Replay.replay frames n))).
Proof.
  apply (replay_invariant _ Replay.arrow);
    [apply map_Forall_empty|apply reconcile_onlyOccupied|done].
Qed.

(** C2.  Only a transition into Occupied leaves a log entry.  In a push tick
    and in a replay step, a seat all of whose events of that tick lead to
    On-Hold or Empty keeps its log while the held list is replaced by the new
    one; and after any sequence of events every entry of every log is the
    record of a transition into Occupied. *)
Theorem only_transitions_into_occupied_are_logged :
  (∀ (st : State) (data : Snapshot) (seatId : string),
     (∀ e, e ∈ tickEvents (processBackendData data) st →
           ev_seat e = seatId → ev_to e ≠ "Occupied") →
     currentSeatLogs (Push.status_update data st) !! seatId
     = currentSeatLogs st !! seatId
     ∧ currentSeats (Push.status_update data st)
       = seatArray (processBackendData data))
  ∧ (∀ (s : Replay.Sim) (frame : Snapshot) (seatId : string),
       Replay.simulationData s !! Replay.currentIndex s = Some frame →
       (∀ e, e ∈ tickEvents (processBackendData frame) (Replay.app s) →
             ev_seat e = seatId → ev_to e ≠ "Occupied") →
       ∃ s', Replay.runUpdateStep s = Some s'
         ∧ currentSeatLogs (Replay.app s') !! seatId
           = currentSeatLogs (Replay.app s) !! seatId
         ∧ currentSeats (Replay.app s') = seatArray (processBackendData frame))
  ∧ (∀ (es : list Push.Event) (seatId : string) (entry : LogEntry),
       entry ∈ logsOf (currentSeatLogs (Push.run es)) seatId →
       ∃ timestamp oldStatus, entry = logEntry timestamp oldStatus "Occupied")
  ∧ (∀ (frames : list Snapshot) (n : nat) (seatId : string) (entry : LogEntry),
       entry ∈ logsOf (currentSeatLogs (Replay.app (Replay.replay frames n)))
                 seatId →
       ∃ timestamp oldStatus,
         entry = Replay.logEntry timestamp oldStatus "Occupied").
Proof.
  split_and!.
  - intros st data seatId Hev.
    exact (reconcile_not_occupied arrow (processBackendData data) st seatId
             Hev).
  - intros s frame seatId Hframe Hev. unfold Replay.runUpdateStep.
    rewrite Hframe. eexists. split; [reflexivity|].
    exact (reconcile_not_occupied Replay.arrow (processBackendData frame) _
             seatId Hev).
  - intros es seatId entry Hin.
    exact (onlyOccupied_logsOf _ _ _ _ (push_run_onlyOccupied es) Hin).
  - intros frames n seatId entry Hin.
    exact (onlyOccupied_logsOf _ _ _ _ (replay_onlyOccupied frames n) Hin).
Qed.

Lemma only_transitions_into_occupied_are_logged_witness :
  let st := Push.run [Push.StatusUpdate (mkSnapshot "08:00:01" [("T1", CNumber 3)]);
                      Push.StatusUpdate (mkSnapshot "08:00:02" [("T1", CNumber 1)])] in
  let data := mkSnapshot "08:00:03" [("T1", CNumber 2)] in
  tickEvents (processBackendData data) st
  = [mkEvent "T1" "08:00:03" "Occupied" "On-Hold"]
  ∧ currentSeatLogs (Push.status_update data st) !! "T1"
    = currentSeatLogs st !! "T1"
  ∧ currentSeats (Push.status_update data st) = [mkSeat "T1" "On-Hold"].
Proof.
  intros st data. split; [vm_compute; reflexivity|].
  apply (proj1 only_transitions_into_occupied_are_logged st data "T1").
  intros e He _.
  assert (tickEvents (processBackendData data) st
          = [mkEvent "T1" "08:00:03" "Occupied" "On-Hold"]) as Hev
    by (vm_compute; reflexivity).
  rewrite Hev in He. apply list_elem_of_singleton in He. subst e.
  simpl. discriminate.
Defined.

(** ** The static loader seeds the logs *)

Lemma seedLog_logsOf (timestamp : string) (store : gmap string (list LogEntry))
    (seat : Seat) (seatId : string) :
  logsOf (Static.seedLog timestamp store seat) seatId
  = if decide (seatId = id seat ∧ logsOf store seatId = [])
    then [mkLog timestamp ("Status set to " +:+ statusText (status seat))]
    else logsOf store seatId.
Proof.
  unfold Static.seedLog.
  destruct (decide (seatId = id seat)) as [->|Hne].
  - unfold logsOf. destruct (store !! id seat) as [l|] eqn:E; simpl.
    + rewrite E. simpl. destruct l as [|e l]; simpl.
      * rewrite decide_True by done. by rewrite lookup_alter_eq, E.
      * rewrite decide_False by (intros [_ ?]; discriminate). by rewrite E.
    + rewrite lookup_insert_eq. simpl. rewrite decide_True by done.
      by rewrite lookup_alter_eq, lookup_insert_eq.
  - rewrite decide_False by (intros [? _]; done). unfold logsOf.
    destruct (store !! id seat) as [l|] eqn:E; simpl.
    + rewrite E. simpl. case_bool_decide; [|done].
      by rewrite lookup_alter_ne.
    + rewrite lookup_insert_eq. simpl.
      by rewrite lookup_alter_ne, lookup_insert_ne.
Qed.

Lemma foldl_seedLog_kept (timestamp : string) (seats : list Seat)
    (store : gmap string (list LogEntry)) (seatId : string) :
  logsOf store seatId ≠ [] →
  logsOf (foldl (Static.seedLog timestamp) store seats) seatId
  = logsOf store seatId.
Proof.
  revert store. induction seats as [|a seats IH]; intros store Hne; [done|].
  simpl.
  assert (logsOf (Static.seedLog timestamp store a) seatId = logsOf store seatId)
    as Hstep.
  { rewrite seedLog_logsOf. case_decide as Hd; [|done]. by destruct Hd. }
  rewrite IH; rewrite Hstep; done.
Qed.

Lemma foldl_seedLog_seeded (timestamp : string) (seats : list Seat)
    (store : gmap string (list LogEntry)) (seatId : string) :
  logsOf store seatId = [] →
  seatId ∈ id <$> seats →
  ∃ seat, seat ∈ seats ∧ id seat = seatId
    ∧ logsOf (foldl (Static.seedLog timestamp) store seats) seatId
      = [mkLog timestamp ("Status set to " +:+ statusText (status seat))].
Proof.
  revert store. induction seats as [|a seats IH]; intros store Hemp Hin.
  { by apply not_elem_of_nil in Hin. }
  simpl. destruct (decide (seatId = id a)) as [Heq|Hne].
  - exists a. split; [by left|]. split; [done|].
    rewrite foldl_seedLog_kept; rewrite seedLog_logsOf;
      rewrite decide_True by done; done.
  - rewrite fmap_cons in Hin. apply elem_of_cons in Hin as [?|Hin]; [done|].
    destruct (IH (Static.seedLog timestamp store a)) as (seat & ? & ? & ?);
      [|done|].
    + rewrite seedLog_logsOf. case_decide as Hd; [|done]. by destruct Hd.
    + exists seat. split; [by right|done].
Qed.

(** C4.  In a push tick and in a replay step, a seat of the new list that is
    not in the held list has no transition event and keeps its log.  The
    one-shot load of the static page is different: every seat of the loaded
    list whose log is empty receives one entry, Status set to its status. *)
Theorem first_appearance_not_logged_by_ticks :
  (∀ (st : State) (data : Snapshot) (seatId : string),
     seatId ∉ id <$> currentSeats st →
     (∀ e, e ∈ tickEvents (processBackendData data) st → ev_seat e ≠ seatId)
     ∧ currentSeatLogs (Push.status_update data st) !! seatId
       = currentSeatLogs st !! seatId)
  ∧ (∀ (s : Replay.Sim) (frame : Snapshot) (seatId : string),
       Replay.simulationData s !! Replay.currentIndex s = Some frame →
       seatId ∉ id <$> currentSeats (Replay.app s) →
       (∀ e, e ∈ tickEvents (processBackendData frame) (Replay.app s) →
             ev_seat e ≠ seatId)
       ∧ ∃ s', Replay.runUpdateStep s = Some s'
           ∧ currentSeatLogs (Replay.app s') !! seatId
             = currentSeatLogs (Replay.app s) !! seatId)
  ∧ (∀ (p : Processed) (st : State) (seatId : string),
       seatId ∈ id <$> seatArray p →
       logsOf (currentSeatLogs st) seatId = [] →
       ∃ seat, seat ∈ seatArray p ∧ id seat = seatId
         ∧ logsOf (currentSeatLogs (Static.initialLoad p st)) seatId
           = [mkLog (p_timestamp p)
                ("Status set to " +:+ statusText (status seat))]).
Proof.
  split_and!.
  - intros st data seatId Hnew.
    exact (reconcile_first_appearance arrow (processBackendData data) st
             seatId Hnew).
  - intros s frame seatId Hframe Hnew.
    destruct (reconcile_first_appearance Replay.arrow
                (processBackendData frame) (Replay.app s) seatId Hnew)
      as [Hev Hlog].
    split; [exact Hev|]. unfold Replay.runUpdateStep. rewrite Hframe.
    eexists. split; [reflexivity|exact Hlog].
  - intros p st seatId Hin Hemp. unfold Static.initialLoad. simpl.
    by apply foldl_seedLog_seeded.
Qed.

Lemma first_appearance_not_logged_by_ticks_witness :
  let st := Push.run [Push.StatusUpdate (mkSnapshot "08:00:01" [("T1", CNumber 3)])] in
  let data := mkSnapshot "08:00:02" [("T1", CNumber 1); ("T2", CNumber 1)] in
  (∀ e, e ∈ tickEvents (processBackendData data) st → ev_seat e ≠ "T2")
  ∧ currentSeatLogs (Push.status_update data st) !! "T2"
    = currentSeatLogs st !! "T2".
Proof.
  intros st data.
  apply (proj1 first_appearance_not_logged_by_ticks st data "T2").
  vm_compute. intros H. apply list_elem_of_singleton in H. discriminate.
Defined.

(** The claim of C4 read for every handler that takes a snapshot fails on the
    static loader: loading {T1: 3} into the fresh page gives T1, which was
    not in the held list, a log entry. *)
Lemma first_appearance_logged_by_static_load :
  ¬ (∀ (p : Processed) (st : State) (seat : Seat),
       seat ∈ seatArray p →
       id seat ∉ id <$> currentSeats st →
       currentSeatLogs (Static.initialLoad p st) !! id seat
       = currentSeatLogs st !! id seat).
Proof.
  intros H.
  specialize (H (processBackendData (mkSnapshot "08:00:01" [("T1", CNumber 3)]))
                initialState (mkSeat "T1" "Empty")).
  assert (mkSeat "T1" "Empty"
          ∈ seatArray (processBackendData (mkSnapshot "08:00:01" [("T1", CNumber 3)])))
    as Hin by (vm_compute; apply list_elem_of_singleton; reflexivity).
  pose proof (H Hin (not_elem_of_nil _)) as Hlog.
  vm_compute in Hlog. discriminate Hlog.
Qed.

(** ** The same snapshot twice *)

Lemma findSeat_elem (seats : list Seat) (seat : Seat) :
  seat ∈ seats → ∃ first, findSeat seats (id seat) = Some first.
Proof.
  intros Hin. destruct (findSeat seats (id seat)) as [first|] eqn:E; [eauto|].
  apply findSeat_None in E. exfalso. apply E.
  apply list_elem_of_fmap. by exists seat.
Qed.

Lemma transitionOf_consistent (seats : list Seat) (timestamp : string)
    (seat : Seat) :
  consistent seats → seat ∈ seats → transitionOf seats timestamp seat = None.
Proof.
  intros Hc Hin. unfold transitionOf.
  destruct (findSeat_elem seats seat Hin) as [first Hf]. rewrite Hf.
  apply findSeat_Some in Hf as [Hfin Hid].
  rewrite bool_decide_eq_false_2; [done|].
  intros Hne. apply Hne. by apply Hc.
Qed.

Lemma transitions_self (seats : list Seat) (timestamp : string) :
  consistent seats ↔ transitions seats seats timestamp = [].
Proof.
  split.
  - intros Hc. apply omap_None. intros seat Hin.
    by apply transitionOf_consistent.
  - intros Hnil.
    assert (∀ seat, seat ∈ seats →
              ∃ first, findSeat seats (id seat) = Some first
                ∧ status first = status seat) as Hfirst.
    { intros seat Hin. destruct (findSeat_elem seats seat Hin) as [first Hf].
      exists first. split; [done|].
      destruct (decide (status first = status seat)) as [|Hne]; [done|].
      exfalso.
      assert (mkEvent (id seat) timestamp (status first) (status seat)
              ∈ transitions seats seats timestamp) as Hev.
      { apply list_elem_of_omap. exists seat. split; [done|].
        unfold transitionOf. rewrite Hf. by rewrite bool_decide_eq_true_2. }
      rewrite Hnil in Hev. by apply not_elem_of_nil in Hev. }
    intros a b Ha Hb Hid.
    destruct (Hfirst a Ha) as (fa & Hfa & <-).
    destruct (Hfirst b Hb) as (fb & Hfb & <-).
    rewrite Hid in Hfa. congruence.
Qed.

Lemma NoDup_ids_consistent (seats : list Seat) :
  NoDup (id <$> seats) → consistent seats.
Proof.
  intros Hnd a b Ha Hb Hid.
  apply list_elem_of_lookup in Ha as [i Hi], Hb as [j Hj].
  assert (i = j) as ->; [|congruence].
  apply (NoDup_lookup (id <$> seats) i j (id a) Hnd).
  - by rewrite list_lookup_fmap, Hi.
  - by rewrite list_lookup_fmap, Hj, Hid.
Qed.

Lemma reconcile_twice (sep : string) (p : Processed) (st : State) :
  consistent (seatArray p) →
  reconcileWith sep p (reconcileWith sep p st) = reconcileWith sep p st.
Proof.
  intros Hc. rewrite (reconcile_events sep p (reconcileWith sep p st)).
  unfold tickEvents.
  assert (currentSeats (reconcileWith sep p st) = seatArray p) as ->
    by reflexivity.
  apply (transitions_self _ (p_timestamp p)) in Hc. rewrite Hc. reflexivity.
Qed.

(** C7.  Processing a snapshot and then the same snapshot again: when no two
    entries of the normalized list with the same id carry different
    statuses, the second tick has no transition event and changes nothing,
    the log store included; this holds for the push handler and for two
    replay steps on equal frames. *)
Theorem same_snapshot_twice_is_idempotent (st : State) (data : Snapshot) :
  consistent (seatArray (processBackendData data)) →
  let st1 := Push.status_update data st in
  tickEvents (processBackendData data) st1 = []
  ∧ Push.status_update data st1 = st1
  ∧ currentSeatLogs (Push.status_update data st1) = currentSeatLogs st1
  ∧ ∀ s : Replay.Sim,
      Replay.app (Replay.applyFrame data (Replay.applyFrame data s))
      = Replay.app (Replay.applyFrame data s).
Proof.
  intros Hc st1.
  assert (Push.status_update data st1 = st1) as Hsame
    by exact (reconcile_twice arrow (processBackendData data) st Hc).
  split_and!.
  - unfold tickEvents.
    by apply (transitions_self (seatArray (processBackendData data))).
  - exact Hsame.
  - by rewrite Hsame.
  - intros s.
    exact (reconcile_twice Replay.arrow (processBackendData data) _ Hc).
Qed.

Lemma same_snapshot_twice_is_idempotent_witness :
  let data := mkSnapshot "08:00:02" [("T1", CNumber 1); ("T2", CNumber 3)] in
  let st1 := Push.status_update data
               (Push.run [Push.StatusUpdate
                            (mkSnapshot "08:00:01" [("T1", CNumber 3); ("T2", CNumber 3)])]) in
  tickEvents (processBackendData data) st1 = []
  ∧ Push.status_update data st1 = st1
  ∧ currentSeatLogs (Push.status_update data st1) = currentSeatLogs st1
  ∧ ∀ s : Replay.Sim,
      Replay.app (Replay.applyFrame data (Replay.applyFrame data s))
      = Replay.app (Replay.applyFrame data s).
Proof.
  intros data st1.
  apply (same_snapshot_twice_is_idempotent _ data).
  apply NoDup_ids_consistent. vm_compute.
  apply NoDup_cons. split; [|apply NoDup_singleton].
  rewrite list_elem_of_singleton. discriminate.
Defined.

(** The claim of C7 for every snapshot fails when two keys collide after
    upper-casing and carry different codes: for {t1: 3, T1: 1} the second
    tick compares the entry T1, Occupied with the first held T1, which is
    Empty, and logs a transition. *)
Lemma same_snapshot_twice_can_log :
  ¬ (∀ (st : State) (data : Snapshot),
       let st1 := Push.status_update data st in
       tickEvents (processBackendData data) st1 = []
       ∧ currentSeatLogs (Push.status_update data st1) = currentSeatLogs st1).
Proof.
  intros H.
  destruct (H initialState (mkSnapshot "08:00:01" [("t1", CNumber 3); ("T1", CNumber 1)]))
    as [Hev _].
  vm_compute in Hev. discriminate Hev.
Qed.

(** ** Replay *)

Lemma advance_mod (frames : list Snapshot) (i : nat) :
  i < length frames → Replay.advance frames i = S i mod length frames.
Proof.
  intros Hi. unfold Replay.advance. case_bool_decide as Hlen.
  - assert (S i = length frames) as -> by lia.
    symmetry. apply Nat.Div0.mod_same.
  - symmetry. apply Nat.mod_small. lia.
Qed.

Lemma load_nonempty (firstFrame : Snapshot) (rest : list Snapshot) :
  Replay.load (firstFrame :: rest) Replay.initialSim
  = Replay.mkSim (commit (processBackendData firstFrame) initialState)
      (firstFrame :: rest) 1 true.
Proof. reflexivity. Qed.

(** With at least two frames the timer never reads past the list: after [n]
    firings the frames are still there, the timer is armed and the cursor is
    [(1 + n) mod length]. *)
Lemma replay_cursor (frames : list Snapshot) (n : nat) :
  2 ≤ length frames →
  Replay.simulationData (Replay.replay frames n) = frames
  ∧ Replay.simulationInterval (Replay.replay frames n) = true
  ∧ Replay.currentIndex (Replay.replay frames n) = (1 + n) mod length frames.
Proof.
  intros Hlen. unfold Replay.replay, Replay.ticks.
  induction n as [|n (Hdata & Harmed & Hidx)].
  - destruct frames as [|firstFrame rest]; [simpl in Hlen; lia|].
    simpl Nat.iter. rewrite load_nonempty.
    split_and!; [reflexivity|reflexivity|].
    change (1 = 1 mod length (firstFrame :: rest)).
    symmetry. apply Nat.mod_small. simpl in Hlen. simpl. lia.
  - simpl Nat.iter. set (s := Nat.iter n Replay.tick _) in *.
    assert (Replay.currentIndex s < length frames) as Hlt.
    { rewrite Hidx. apply Nat.mod_upper_bound. lia. }
    unfold Replay.tick, Replay.runUpdateStep. rewrite Harmed, Hdata.
    destruct (lookup_lt_is_Some_2 frames _ Hlt) as [frame Hframe].
    rewrite Hframe. simpl. rewrite Hdata.
    split_and!; [done|done|].
    rewrite advance_mod by done. rewrite Hidx.
    change (S (S n)) with (1 + (1 + n)).
    change (S ((1 + n) mod length frames))
      with (1 + (1 + n) mod length frames).
    by rewrite Nat.Div0.add_mod_idemp_r.
Qed.

(** A list of one frame: the cursor is set to 1, past the end, and every
    firing of the timer throws before it changes anything. *)
Lemma replay_single_frame_stuck (frame : Snapshot) (n : nat) :
  Replay.replay [frame] n = Replay.load [frame] Replay.initialSim
  ∧ Replay.currentIndex (Replay.replay [frame] n) = 1
  ∧ Replay.runUpdateStep (Replay.replay [frame] n) = None.
Proof.
  assert (Replay.replay [frame] n = Replay.load [frame] Replay.initialSim) as ->.
  { unfold Replay.replay, Replay.ticks. induction n as [|n IH]; [done|].
    simpl Nat.iter. rewrite IH. reflexivity. }
  done.
Qed.

(** C1.  Replay of a list of at least two frames.  Loading applies the first
    frame at once, with no transition detection: the held list becomes its
    normalized list, the log store stays empty and the cursor is 1.  Every
    timer firing then applies the frame under the cursor, which after [n]
    firings is [(1 + n) mod length]; so the firing that follows the last
    frame applies frame 0 again.  That later application of frame 0 is an
    ordinary reconciliation against the held list. *)
Theorem replay_seeds_then_cycles (frames : list Snapshot) (n : nat) :
  2 ≤ length frames →
  (∃ firstFrame,
     frames !! 0 = Some firstFrame
     ∧ Replay.load frames Replay.initialSim
       = Replay.mkSim (commit (processBackendData firstFrame) initialState)
           frames 1 true
     ∧ currentSeats (Replay.app (Replay.replay frames 0))
       = seatArray (processBackendData firstFrame)
     ∧ currentSeatLogs (Replay.app (Replay.replay frames 0)) = ∅)
  ∧ Replay.currentIndex (Replay.replay frames n) = (1 + n) mod length frames
  ∧ (∃ frame,
       frames !! Replay.currentIndex (Replay.replay frames n) = Some frame
       ∧ Replay.runUpdateStep (Replay.replay frames n)
         = Some (Replay.replay frames (S n))
       ∧ Replay.app (Replay.replay frames (S n))
         = Replay.reconcile (processBackendData frame)
             (Replay.app (Replay.replay frames n)))
  ∧ (Replay.currentIndex (Replay.replay frames n) = length frames - 1 →
     Replay.currentIndex (Replay.replay frames (S n)) = 0).
Proof.
  intros Hlen.
  destruct (replay_cursor frames n Hlen) as (Hdata & Harmed & Hidx).
  destruct (replay_cursor frames (S n) Hlen) as (_ & _ & Hnext).
  split_and!.
  - destruct frames as [|firstFrame rest]; [simpl in Hlen; lia|].
    exists firstFrame. split_and!; reflexivity.
  - exact Hidx.
  - assert (Replay.currentIndex (Replay.replay frames n) < length frames)
      as Hlt by (rewrite Hidx; apply Nat.mod_upper_bound; lia).
    destruct (lookup_lt_is_Some_2 frames _ Hlt) as [frame Hframe].
    exists frame. split; [exact Hframe|].
    assert (Replay.replay frames (S n) = Replay.tick (Replay.replay frames n))
      as -> by reflexivity.
    unfold Replay.tick, Replay.runUpdateStep.
    rewrite Harmed, Hdata, Hframe. done.
  - intros Hlast. rewrite Hnext.
    replace (1 + S n) with (1 + (1 + n)) by lia.
    rewrite <- Nat.Div0.add_mod_idemp_r, <- Hidx, Hlast.
    replace (1 + (length frames - 1)) with (length frames) by lia.
    apply Nat.Div0.mod_same.
Qed.

Lemma replay_seeds_then_cycles_witness :
  let frames := [mkSnapshot "08:00:01" [("T1", CNumber 3)];
                 mkSnapshot "08:00:02" [("T1", CNumber 1)];
                 mkSnapshot "08:00:03" [("T1", CNumber 2)]] in
  2 ≤ length frames
  ∧ Replay.currentIndex (Replay.replay frames 1) = (1 + 1) mod length frames
  ∧ Replay.currentIndex (Replay.replay frames 2) = 0.
Proof.
  intros frames.
  assert (2 ≤ length frames) as Hlen by (simpl; lia).
  split; [exact Hlen|]. split.
  - exact (proj1 (proj2 (replay_seeds_then_cycles frames 1 Hlen))).
  - apply (proj2 (proj2 (proj2 (replay_seeds_then_cycles frames 1 Hlen)))).
    reflexivity.
Defined.

(** The claim of C1 that applying the first frame never produces a log entry
    fails on the way round: with the frames {A: 1} and {A: 3} the first
    firing applies frame 1 and wraps the cursor to 0, and the second firing
    applies frame 0 against the held A, Empty and logs Empty to Occupied. *)
Lemma replay_first_frame_can_log :
  ¬ (∀ (frames : list Snapshot) (n : nat),
       Replay.currentIndex (Replay.replay frames n) = 0 →
       currentSeatLogs (Replay.app (Replay.replay frames (S n)))
       = currentSeatLogs (Replay.app (Replay.replay frames n))).
Proof.
  intros H.
  specialize (H [mkSnapshot "08:00:01" [("A", CNumber 1)];
                 mkSnapshot "08:00:02" [("A", CNumber 3)]] 1 eq_refl).
  assert (currentSeatLogs
            (Replay.app
               (Replay.replay [mkSnapshot "08:00:01" [("A", CNumber 1)];
                               mkSnapshot "08:00:02" [("A", CNumber 3)]] 2)) !! "A"
          = Some [Replay.logEntry "08:00:01" "Empty" "Occupied"]) as Hlog
    by (vm_compute; reflexivity).
  rewrite H in Hlog. vm_compute in Hlog. discriminate Hlog.
Qed.

(** ** Seats never seen *)

Lemma reconcile_absent (sep : string) (p : Processed) (st : State)
    (seatId : string) :
  seatId ∉ id <$> seatArray p →
  currentSeatLogs (reconcileWith sep p st) !! seatId
  = currentSeatLogs st !! seatId.
Proof.
  intros Habs. apply reconcile_not_occupied. intros e He Hseat.
  apply transitions_seat in He as (oldSeat & newSeat & Hin & _ & _ & ->).
  simpl in Hseat. exfalso. apply Habs.
  apply list_elem_of_fmap. by exists newSeat.
Qed.

(** A seat id that occurs in no pushed snapshot has no record, whatever was
    clicked in between. *)
Lemma push_unseen_seat_unrecorded (upper : string → string)
    (es : list Push.Event) (seatId : string) :
  (∀ data, Push.StatusUpdate data ∈ es →
           seatId ∉ id <$> seatArray (processBackendDataWith upper data)) →
  currentSeatLogs (Push.runWith upper es) !! seatId = None.
Proof.
  unfold Push.runWith.
  assert (currentSeatLogs initialState !! seatId = None) as Hinit
    by apply lookup_empty.
  revert Hinit. generalize initialState.
  induction es as [|e es IH]; intros st Hst Hun; [done|].
  simpl. apply IH; [|intros; apply Hun; by right].
  destruct e as [data|clicked]; [|exact Hst].
  change (currentSeatLogs
            (reconcileWith arrow (processBackendDataWith upper data) st)
            !! seatId = None).
  rewrite reconcile_absent; [done|]. apply Hun. by left.
Qed.

Lemma runWith_bounded (upper : string → string) (es : list Push.Event) :
  logBounded (currentSeatLogs (Push.runWith upper es)).
Proof.
  unfold Push.runWith.
  apply (foldl_preserves (λ st, logBounded (currentSeatLogs st)));
    [|apply map_Forall_empty].
  intros st [data|seatId] Hb; [|exact Hb].
  by apply reconcile_bounded.
Qed.

(** ** What one tick writes into a log *)

Lemma take_app_take {A} (n : nat) (l1 l2 : list A) :
  take n (l1 ++ take n l2) = take n (l1 ++ l2).
Proof.
  rewrite !take_app, take_take. do 2 f_equal. lia.
Qed.

Lemma recordEvents_logsOf (events : list TransitionEvent) (st : State)
    (seatId : string) :
  let new := eventEntry <$> filter (λ e, ev_seat e = seatId) events in
  logsOf (currentSeatLogs (foldl recordEvent st events)) seatId
  = if decide (new = []) then logsOf (currentSeatLogs st) seatId
    else take 5 (reverse new ++ logsOf (currentSeatLogs st) seatId).
Proof.
  cbv zeta. unfold recordEvent.
  revert st. induction events as [|e events IH]; intros st; [done|].
  cbn [foldl]. rewrite IH. rewrite filter_cons.
  destruct (decide (ev_seat e = seatId)) as [<-|Hne].
  - rewrite fmap_cons.
    set (E := eventEntry <$> filter _ events).
    destruct (decide (eventEntry e :: E = [])) as [?|_]; [done|].
    unfold recordEventWith. rewrite !addLogEntry_logsOf.
    change (logEntryWith arrow (ev_time e) (ev_from e) (ev_to e))
      with (eventEntry e).
    destruct (decide (E = [])) as [->|Hnil]; [done|].
    by rewrite take_app_take, reverse_cons, <- app_assoc.
  - unfold recordEventWith, logsOf.
    by rewrite addLogEntry_other.
Qed.

Lemma reconcile_log_contents (p : Processed) (st : State) (seatId : string) :
  let new := eventEntry
               <$> filter (λ e, ev_seat e = seatId)
                     (filter toOccupied (tickEvents p st)) in
  logsOf (currentSeatLogs (reconcile p st)) seatId
  = (if decide (new = []) then logsOf (currentSeatLogs st) seatId
     else take 5 (reverse new ++ logsOf (currentSeatLogs st) seatId))
  ∧ Forall (λ entry, t entry = p_timestamp p) new.
Proof.
  intros new. split.
  - unfold reconcile. rewrite reconcile_events. apply recordEvents_logsOf.
  - subst new. rewrite Forall_fmap. apply Forall_forall.
    intros e [_ [_ He]%list_elem_of_filter]%list_elem_of_filter.
    apply transitions_seat in He as (oldSeat & newSeat & _ & _ & _ & ->).
    reflexivity.
Qed.

(** ** Asking for the log of a seat *)

Lemma recordsFor_log (p : Processed) (st : State) (seatId : string) :
  logsOf (currentSeatLogs (reconcile p st)) seatId = []
  ↔ logsOf (currentSeatLogs st) seatId = [] ∧ recordsFor seatId p st = false.
Proof.
  destruct (reconcile_log_contents p st seatId) as [-> _]. unfold recordsFor.
  destruct (filter (λ e, ev_seat e = seatId)
              (filter toOccupied (tickEvents p st))) as [|e events].
  - rewrite decide_True by done. split; [|by intros [? _]].
    intros Hnil. split; [done|]. apply bool_decide_eq_false_2. by intros Hne.
  - rewrite fmap_cons, reverse_cons.
    rewrite decide_False by discriminate. split.
    + intros Hnil. by destruct (reverse (eventEntry <$> events)).
    + intros [_ Hfalse]. apply bool_decide_eq_false in Hfalse.
      by destruct Hfalse.
Qed.

Lemma everRecorded_log (upper : string → string) (es : list Push.Event)
    (st : State) (seatId : string) :
  logsOf (currentSeatLogs (foldl (Push.handleWith upper) st es)) seatId = []
  ↔ logsOf (currentSeatLogs st) seatId = []
    ∧ everRecorded upper seatId st es = false.
Proof.
  revert st. induction es as [|e es IH]; intros st.
  - simpl. tauto.
  - cbn [foldl everRecorded]. rewrite IH, orb_false_iff.
    destruct e as [data|clicked].
    + change (Push.handleWith upper st (Push.StatusUpdate data))
        with (reconcile (processBackendDataWith upper data) st).
      rewrite recordsFor_log. tauto.
    + change (currentSeatLogs
                (Push.handleWith upper st (Push.SeatClick clicked)))
        with (currentSeatLogs st).
      tauto.
Qed.

Lemma noLowerCase_not_inherited (s : string) :
  noLowerCase s = true → s ∉ objectPrototype.
Proof.
  intros Hs Hin.
  assert (Forall (λ name, noLowerCase name = false) objectPrototype) as Hlow
    by (repeat constructor).
  rewrite Forall_forall in Hlow. apply Hlow in Hin. congruence.
Qed.

Lemma toUpperCase_not_inherited (s : string) : toUpperCase s ∉ objectPrototype.
Proof. apply noLowerCase_not_inherited, noLowerCase_toUpperCase. Qed.

(** The push page over the upper-casing function of the host, of which it
    is only taken that its results hold none of the letters a to z. *)
Section HostSeatIds.
Variable upper : string → string.
Hypothesis upper_no_lower : ∀ s, noLowerCase (upper s) = true.

(** C8.  On the push page, asking for the log of a seat under an id in the
    upper case the normalizer gives its ids never fails and gives the log
    stored for the seat.  Such an id never names a member of
    [Object.prototype], so the answer is the seat's own record or nothing.
    The log is the empty sequence exactly when no tick so far has recorded
    a transition of the seat into Occupied, as for an id that occurred in
    no snapshot; [renderLogList] then shows the empty-history placeholder.
    Otherwise the log has one to five entries and is shown whole, whether
    or not the seat is in the held list: a seat that has left the held list
    keeps its log. *)
Theorem seat_log_query_never_fails (es : list Push.Event) (key : string) :
  let seatId := upper key in
  let st := Push.runWith upper es in
  let logs := logsOf (currentSeatLogs st) seatId in
  let shown :=
    if everRecorded upper seatId initialState es then Entries logs
    else NoHistory in
  (seatId ∉ objectPrototype)
  ∧ (logs = [] ↔ everRecorded upper seatId initialState es = false)
  ∧ length logs ≤ 5
  ∧ renderLogList (currentSeatLogs st) seatId = shown
  ∧ Push.handleWith upper st (Push.SeatClick seatId)
    = mkState (currentSeats st) (lastTimestamp st) (currentSeatLogs st)
        (mkPage seatId shown (cards (page st)))
  ∧ ((∀ data, Push.StatusUpdate data ∈ es →
              seatId ∉ id <$> seatArray (processBackendDataWith upper data)) →
     logs = [])
  ∧ (∀ raw seat, seat ∈ seatArray (processBackendDataWith upper raw) →
                 id seat ∉ objectPrototype).
Proof.
  intros seatId st logs shown.
  assert (logs = [] ↔ everRecorded upper seatId initialState es = false)
    as Hiff.
  { subst logs st. unfold Push.runWith. rewrite everRecorded_log.
    split; [by intros [_ ?]|]. intros Hnever. split; [|done].
    unfold logsOf. simpl. by rewrite lookup_empty. }
  assert (renderLogList (currentSeatLogs st) seatId = shown) as Hshown.
  { subst shown. unfold renderLogList. fold logs.
    destruct (everRecorded upper seatId initialState es).
    - rewrite bool_decide_eq_false_2; [done|].
      intros Hlen%nil_length_inv. apply Hiff in Hlen. discriminate.
    - rewrite bool_decide_eq_true_2; [done|].
      by rewrite (proj2 Hiff eq_refl). }
  split; [apply noLowerCase_not_inherited, upper_no_lower|].
  split; [exact Hiff|].
  split; [apply logBounded_logsOf, runWith_bounded|].
  split; [exact Hshown|].
  split.
  { simpl. unfold showSeatDetails. by rewrite Hshown. }
  split.
  { intros Hunseen. subst logs st. unfold logsOf.
    by rewrite push_unseen_seat_unrecorded. }
  intros raw seat. rewrite seatArrayWith_omap, list_elem_of_omap.
  intros ([k c] & _ & Hseat). unfold normalizedEntryWith in Hseat.
  simpl in Hseat.
  destruct (getProperty (toPropertyKey c)); simplify_eq/=.
  apply noLowerCase_not_inherited, upper_no_lower.
Qed.

End HostSeatIds.

Lemma seat_log_query_never_fails_witness :
  let es := [Push.StatusUpdate (mkSnapshot "08:00:01" [("t1", CNumber 3)]);
             Push.StatusUpdate (mkSnapshot "08:00:02" [("t1", CNumber 1)]);
             Push.StatusUpdate (mkSnapshot "08:00:03" [("t2", CNumber 3)])] in
  currentSeats (Push.run es) = [mkSeat "T2" "Empty"]
  ∧ renderLogList (currentSeatLogs (Push.run es)) "T1"
    = Entries [logEntry "08:00:02" "Empty" "Occupied"]
  ∧ renderLogList (currentSeatLogs (Push.run es)) "T9" = NoHistory.
Proof.
  intros es.
  split; [vm_compute; reflexivity|]. split.
  - change (renderLogList (currentSeatLogs (Push.runWith toUpperCase es))
              (toUpperCase "t1")
            = Entries [logEntry "08:00:02" "Empty" "Occupied"]).
    rewrite (proj1 (proj2 (proj2 (proj2
               (seat_log_query_never_fails toUpperCase noLowerCase_toUpperCase
                  es "t1"))))).
    vm_compute. reflexivity.
  - change (renderLogList (currentSeatLogs (Push.runWith toUpperCase es))
              (toUpperCase "t9") = NoHistory).
    rewrite (proj1 (proj2 (proj2 (proj2
               (seat_log_query_never_fails toUpperCase noLowerCase_toUpperCase
                  es "t9"))))).
    vm_compute. reflexivity.
Defined.

(** The claim of C8 that the log of an id absent from the current state is
    empty fails for a seat that has left the held list: after {T1: 3},
    {T1: 1} and {T2: 3} the held list is T2 alone, and the log of T1 still
    holds the entry Empty to Occupied. *)
Lemma absent_seat_keeps_its_log :
  ¬ (∀ (es : list Push.Event) (seatId : string),
       seatId ∉ id <$> currentSeats (Push.run es) →
       logsOf (currentSeatLogs (Push.run es)) seatId = []).
Proof.
  intros H.
  specialize (H [Push.StatusUpdate (mkSnapshot "08:00:01" [("T1", CNumber 3)]);
                 Push.StatusUpdate (mkSnapshot "08:00:02" [("T1", CNumber 1)]);
                 Push.StatusUpdate (mkSnapshot "08:00:03" [("T2", CNumber 3)])]
                "T1").
  assert ("T1" ∉ id <$> [mkSeat "T2" "Empty"]) as Habs.
  { simpl. rewrite list_elem_of_singleton. discriminate. }
  apply H in Habs. vm_compute in Habs. discriminate Habs.
Qed.

(** * Further properties of the code *)

(** ** Summary cards and seat colours *)

(** Each card shows the number of seats with its status, for any seat list:
    a seat whose status is none of the three raises no status card, and the
    total is the length of the list, plus one for every seat whose status
    is the key Total itself. *)
Theorem summary_cards_count_each_status (data : list Seat) (timestamp : string) :
  let c := updateSummaryCards data timestamp in
  count_occupied c = countStatus "Occupied" data
  ∧ count_on_hold c = countStatus "On-Hold" data
  ∧ count_empty c = countStatus "Empty" data
  ∧ total c = length data + countStatus "Total" data
  ∧ count_occupied c + count_on_hold c + count_empty c ≤ length data.
Proof.
  intros c. subst c. rewrite summary_counts. simpl.
  split_and!; try reflexivity.
  unfold countStatus.
  induction data as [|[i s] data IH]; [done|].
  rewrite !filter_cons. simpl in *.
  repeat case_decide; subst; try discriminate; simpl; lia.
Qed.

Lemma getStatusClass_known (s : Status) :
  knownStatus s → getStatusClass s ≠ "".
Proof. intros [->|[->| ->]]; discriminate. Qed.

Lemma getStatusClass_inj (s1 s2 : Status) :
  knownStatus s1 → knownStatus s2 →
  getStatusClass s1 = getStatusClass s2 → s1 = s2.
Proof.
  intros [->|[->| ->]] [->|[->| ->]]; vm_compute; congruence.
Qed.

Lemma getStatusClass_other (s : Status) :
  ¬ knownStatus s → getStatusClass s = "".
Proof.
  intros Hs. unfold getStatusClass.
  repeat case_decide; try reflexivity; exfalso; apply Hs;
    unfold knownStatus; auto.
Qed.

Lemma inheritedStatus_not_known (s : Status) :
  inheritedStatus s → ¬ knownStatus s.
Proof. intros (name & _ & ->) [H|[H|H]]; discriminate. Qed.

(** A seat the normalizer produces is coloured exactly when its status is
    one of the three strings; a seat kept with an inherited member as its
    status gets the empty class, as does any status outside the three.  A
    seat with one of the three statuses gets the same class as another seat
    exactly when the two have the same status, and when no code of the
    snapshot names an inherited member every seat is coloured. *)
Theorem normalized_seats_are_coloured (raw : Snapshot) (a b : Seat) :
  a ∈ seatArray (processBackendData raw) →
  b ∈ seatArray (processBackendData raw) →
  (getStatusClass (status a) ≠ "" ↔ knownStatus (status a))
  ∧ (getStatusClass (status a) = "" ↔ inheritedStatus (status a))
  ∧ (knownStatus (status a) →
     getStatusClass (status a) = getStatusClass (status b)
     ↔ status a = status b)
  ∧ (Forall (λ kv, ¬ inheritedCode kv.2) (status_codes raw) →
     getStatusClass (status a) ≠ "")
  ∧ ∀ s, ¬ knownStatus s → getStatusClass s = "".
Proof.
  intros Ha Hb.
  pose proof (seatArray_normal toUpperCase _ _ Ha) as Hna.
  pose proof (seatArray_normal toUpperCase _ _ Hb) as Hnb.
  assert (getStatusClass (status a) ≠ "" ↔ knownStatus (status a)) as Hiff.
  { split; [|apply getStatusClass_known].
    intros Hc. destruct (decide (knownStatus (status a))) as [|Hno]; [done|].
    by apply getStatusClass_other in Hno. }
  split; [exact Hiff|]. split.
  { split.
    - intros Hc. destruct Hna as [Hk|Hi]; [|done].
      by apply getStatusClass_known in Hk.
    - intros Hi. by apply getStatusClass_other, inheritedStatus_not_known. }
  split.
  { intros Hk. split; [|by intros ->]. intros Hc.
    apply getStatusClass_inj; [done| |done].
    destruct (decide (knownStatus (status b))) as [|Hno]; [done|].
    apply getStatusClass_other in Hno. rewrite Hno in Hc.
    by apply getStatusClass_known in Hk. }
  split; [|apply getStatusClass_other].
  intros Hclean. apply Hiff.
  pose proof (seatArray_known_clean toUpperCase raw Hclean) as Hknown.
  rewrite Forall_forall in Hknown. by apply Hknown.
Qed.

Lemma normalized_seats_are_coloured_witness :
  let raw := mkSnapshot "08:00:01"
               [("t1", CNumber 1); ("t2", CString "constructor")] in
  seatArray (processBackendData raw)
  = [mkSeat "T1" "Occupied"; mkSeat "T2" (VInherited "constructor")]
  ∧ getStatusClass "Occupied" = "occupied-status"
  ∧ (getStatusClass "Occupied" = "" ↔ inheritedStatus "Occupied")
  ∧ (getStatusClass (VInherited "constructor") = ""
     ↔ inheritedStatus (VInherited "constructor")).
Proof.
  intros raw.
  assert (seatArray (processBackendData raw)
          = [mkSeat "T1" "Occupied"; mkSeat "T2" (VInherited "constructor")])
    as Hseats by (vm_compute; reflexivity).
  split; [exact Hseats|]. split; [reflexivity|]. split.
  - apply (normalized_seats_are_coloured raw (mkSeat "T1" "Occupied")
             (mkSeat "T1" "Occupied")); rewrite Hseats; apply list_elem_of_here.
  - apply (normalized_seats_are_coloured raw
             (mkSeat "T2" (VInherited "constructor")) (mkSeat "T1" "Occupied"));
      rewrite Hseats;
      [apply list_elem_of_further, list_elem_of_here|apply list_elem_of_here].
Defined.

(** ** What one tick writes into a log *)

(** After a tick the log of a seat is its old log with the entries of this
    tick's transitions of that seat into Occupied put in front, the latest
    first, cut to five; without such a transition the log is the old one.
    Every new entry carries the timestamp of the snapshot. *)
Theorem tick_log_contents (data : Snapshot) (st : State) (seatId : string) :
  let new := eventEntry
               <$> filter (λ e, ev_seat e = seatId)
                     (filter toOccupied (tickEvents (processBackendData data) st)) in
  logsOf (currentSeatLogs (Push.status_update data st)) seatId
  = (if decide (new = []) then logsOf (currentSeatLogs st) seatId
     else take 5 (reverse new ++ logsOf (currentSeatLogs st) seatId))
  ∧ Forall (λ entry, t entry = timestamp data) new.
Proof. exact (reconcile_log_contents (processBackendData data) st seatId). Qed.

Lemma events_of_seat_le (held new : list Seat) (timestamp seatId : string) :
  length (filter (λ e, ev_seat e = seatId)
            (filter toOccupied (transitions held new timestamp)))
  ≤ length (filter (λ seat, id seat = seatId) new).
Proof.
  unfold transitions. induction new as [|a new IH]; [done|].
  change (omap (transitionOf held timestamp) (a :: new))
    with (match transitionOf held timestamp a with
          | Some e => e :: omap (transitionOf held timestamp) new
          | None => omap (transitionOf held timestamp) new
          end).
  rewrite (filter_cons _ a).
  destruct (transitionOf held timestamp a) as [e|] eqn:E.
  - unfold transitionOf in E. destruct (findSeat held (id a)); [|done].
    case_bool_decide; [|done]. simplify_eq.
    rewrite (filter_cons toOccupied).
    destruct (decide (toOccupied _)); rewrite ?filter_cons; simpl;
      case_decide; simpl; lia.
  - case_decide; simpl; lia.
Qed.

Lemma filter_absent_id (seats : list Seat) (seatId : string) :
  seatId ∉ id <$> seats → filter (λ seat, id seat = seatId) seats = [].
Proof.
  induction seats as [|a seats IH]; [done|].
  rewrite fmap_cons, not_elem_of_cons. intros [Hne Hnin].
  rewrite filter_cons. case_decide; [congruence|by apply IH].
Qed.

Lemma NoDup_ids_filter (seats : list Seat) (seatId : string) :
  NoDup (id <$> seats) →
  length (filter (λ seat, id seat = seatId) seats) ≤ 1.
Proof.
  induction seats as [|a seats IH]; [simpl; lia|].
  rewrite fmap_cons, NoDup_cons. intros [Hnin Hnd].
  rewrite filter_cons. case_decide as Heq; [|by apply IH].
  subst seatId. rewrite filter_absent_id by done. simpl. lia.
Qed.

(** When the ids of the normalized snapshot are pairwise distinct, a tick
    puts at most one entry in front of a seat's log: the log afterwards is
    the old one, or one new entry with the snapshot's timestamp followed by
    the old entries, cut to five. *)
Theorem tick_adds_at_most_one_entry (data : Snapshot) (st : State)
    (seatId : string) :
  NoDup (id <$> seatArray (processBackendData data)) →
  logsOf (currentSeatLogs (Push.status_update data st)) seatId
  = logsOf (currentSeatLogs st) seatId
  ∨ ∃ oldStatus,
      logsOf (currentSeatLogs (Push.status_update data st)) seatId
      = take 5 (logEntry (timestamp data) oldStatus "Occupied"
                  :: logsOf (currentSeatLogs st) seatId).
Proof.
  intros Hnd.
  destruct (reconcile_log_contents (processBackendData data) st seatId)
    as [Hlog Hnew].
  revert Hlog Hnew.
  pose proof (events_of_seat_le (currentSeats st)
                (seatArray (processBackendData data)) (timestamp data) seatId)
    as Hlen.
  pose proof (NoDup_ids_filter _ seatId Hnd) as Hone.
  unfold tickEvents. simpl p_timestamp.
  set (events := filter (λ e, ev_seat e = seatId) (filter toOccupied _)) in *.
  assert (∀ e, e ∈ events → ev_to e = "Occupied") as Hocc.
  { intros e [_ [Ho _]%list_elem_of_filter]%list_elem_of_filter. exact Ho. }
  assert (length events ≤ 1) as Hle by lia. clear Hlen Hone.
  destruct events as [|e [|e' events]]; [| |simpl in Hle; lia].
  - intros Hlog _. left. exact Hlog.
  - intros Hlog Hnew. right. exists (ev_from e).
    rewrite !status_update_reconcile. rewrite Hlog. simpl.
    apply (Forall_singleton (λ entry, t entry = timestamp data)) in Hnew.
    simpl in Hnew. unfold eventEntry. rewrite Hnew.
    by rewrite (Hocc e) by apply list_elem_of_here.
Qed.

Lemma tick_adds_at_most_one_entry_witness :
  let st := Push.run [Push.StatusUpdate (mkSnapshot "08:00:01" [("T1", CNumber 3)])] in
  let data := mkSnapshot "08:00:02" [("T1", CNumber 1); ("T2", CNumber 1)] in
  logsOf (currentSeatLogs (Push.status_update data st)) "T1"
  = logsOf (currentSeatLogs st) "T1"
  ∨ ∃ oldStatus,
      logsOf (currentSeatLogs (Push.status_update data st)) "T1"
      = take 5 (logEntry (timestamp data) oldStatus "Occupied"
                  :: logsOf (currentSeatLogs st) "T1").
Proof.
  intros st data. apply (tick_adds_at_most_one_entry data st "T1").
  vm_compute. apply NoDup_cons. split; [|apply NoDup_singleton].
  rewrite list_elem_of_singleton. discriminate.
Defined.

(** ** Clicks and the sidebar *)

Lemma addLogEntry_cards (seatId timestamp : string)
    (oldStatus newStatus : Status) (st : State) :
  cards (page (addLogEntry seatId timestamp oldStatus newStatus st))
  = cards (page st).
Proof. unfold addLogEntry, addLogEntryWith. simpl. by case_bool_decide. Qed.

Lemma sameCore_refl (st : State) : sameCore st st.
Proof. by repeat split. Qed.

Lemma sameCore_addLogEntry (seatId timestamp : string)
    (oldStatus newStatus : Status) (st1 st2 : State) :
  sameCore st1 st2 →
  sameCore (addLogEntry seatId timestamp oldStatus newStatus st1)
           (addLogEntry seatId timestamp oldStatus newStatus st2).
Proof.
  intros (Hs & Ht & Hl & Hc). unfold sameCore.
  rewrite !addLogEntry_cards. unfold addLogEntry.
  rewrite !addLogEntry_store, Hl, Hc.
  by repeat split.
Qed.

Lemma sameCore_logChange (timestamp : string) (newSeat : Seat) (st1 st2 : State) :
  sameCore st1 st2 →
  sameCore (logChange timestamp st1 newSeat) (logChange timestamp st2 newSeat).
Proof.
  intros Hsame. unfold logChange, logChangeWith. rewrite (proj1 Hsame).
  destruct (findSeat _ _); [|done].
  repeat case_bool_decide; try done. by apply sameCore_addLogEntry.
Qed.

Lemma sameCore_reconcile (p : Processed) (st1 st2 : State) :
  sameCore st1 st2 → sameCore (reconcile p st1) (reconcile p st2).
Proof.
  intros Hsame. unfold reconcile, reconcileWith.
  change (logChangeWith arrow) with logChange.
  assert (sameCore (foldl (logChange (p_timestamp p)) st1 (seatArray p))
                   (foldl (logChange (p_timestamp p)) st2 (seatArray p)))
    as (_ & _ & Hl & _).
  { revert st1 st2 Hsame. induction (seatArray p) as [|a l IH];
      intros st1 st2 Hsame; [done|].
    simpl. apply IH. by apply sameCore_logChange. }
  unfold sameCore, commit. simpl. by rewrite Hl.
Qed.

Lemma sameCore_click (seatId : string) (st1 st2 : State) :
  sameCore st1 st2 → sameCore (showSeatDetails seatId st1) st2.
Proof. intros H. exact H. Qed.

(** Clicking seats has no effect on reconciliation: the held list, the last
    timestamp, the whole log store and the summary cards after a sequence of
    snapshots and clicks are those after the snapshots alone. *)
Theorem clicks_do_not_affect_reconciliation (es : list Push.Event) :
  sameCore (Push.run es) (Push.run (filter isUpdate es)).
Proof.
  unfold Push.run, Push.runWith.
  change (Push.handleWith toUpperCase) with Push.handle. generalize (sameCore_refl initialState).
  generalize initialState at 1 3. generalize initialState.
  induction es as [|e es IH]; intros st2 st1 Hsame; [done|].
  rewrite filter_cons. destruct e as [data|seatId]; simpl.
  - apply IH. by apply sameCore_reconcile.
  - apply IH. by apply sameCore_click.
Qed.

Lemma addLogEntry_detail_id (seatId timestamp : string)
    (oldStatus newStatus : Status) (st : State) :
  detail_id (page (addLogEntry seatId timestamp oldStatus newStatus st))
  = detail_id (page st).
Proof. unfold addLogEntry, addLogEntryWith. simpl. by case_bool_decide. Qed.

Lemma addLogEntry_log_list (seatId timestamp : string)
    (oldStatus newStatus : Status) (st : State) :
  log_list (page (addLogEntry seatId timestamp oldStatus newStatus st))
  = if bool_decide (detail_id (page st) = seatId)
    then renderLogList
           (currentSeatLogs (addLogEntry seatId timestamp oldStatus newStatus st))
           seatId
    else log_list (page st).
Proof. unfold addLogEntry, addLogEntryWith. simpl. by case_bool_decide. Qed.

Lemma panelFresh_addLogEntry (seatId timestamp : string)
    (oldStatus newStatus : Status) (st : State) :
  panelFresh st →
  panelFresh (addLogEntry seatId timestamp oldStatus newStatus st).
Proof.
  intros Hf. unfold panelFresh.
  rewrite addLogEntry_detail_id, addLogEntry_log_list.
  case_bool_decide as Hid; [by rewrite Hid|].
  rewrite Hf. unfold renderLogList, logsOf, addLogEntry.
  by rewrite addLogEntry_other.
Qed.

Lemma panelFresh_reconcile (p : Processed) (st : State) :
  panelFresh st → panelFresh (reconcile p st).
Proof.
  intros Hf. unfold reconcile, reconcileWith.
  assert (panelFresh (foldl (logChange (p_timestamp p)) st (seatArray p)))
    as Hfold.
  { apply (foldl_preserves panelFresh); [|done].
    intros st' newSeat Hf'. unfold logChange, logChangeWith.
    destruct (findSeat _ _); [|done].
    repeat case_bool_decide; try done. by apply panelFresh_addLogEntry. }
  exact Hfold.
Qed.

Lemma detail_id_reconcile (p : Processed) (st : State) :
  detail_id (page (reconcile p st)) = detail_id (page st).
Proof.
  unfold reconcile, reconcileWith, commit. simpl.
  apply (foldl_preserves (λ st', detail_id (page st') = detail_id (page st)));
    [|done].
  intros st' newSeat Hd. unfold logChangeWith.
  destruct (findSeat _ _); [|done].
  repeat case_bool_decide; try done.
  by rewrite (addLogEntry_detail_id _ _ _ _ st').
Qed.

(** The sidebar is never stale: once a seat has been clicked, after any
    further snapshots the sidebar still names that seat and shows exactly
    the log now stored for it. *)
Theorem sidebar_follows_selected_seat (before after : list Push.Event)
    (seatId : string) :
  Forall isUpdate after →
  let st := Push.run (before ++ Push.SeatClick seatId :: after) in
  detail_id (page st) = seatId
  ∧ log_list (page st) = renderLogList (currentSeatLogs st) seatId.
Proof.
  intros Hafter st. subst st. unfold Push.run, Push.runWith.
  change (Push.handleWith toUpperCase) with Push.handle.
  rewrite foldl_app. simpl.
  set (st0 := showSeatDetails seatId (foldl Push.handle initialState before)).
  assert (detail_id (page st0) = seatId ∧ panelFresh st0) as Hst0 by done.
  clearbody st0. revert st0 Hst0.
  induction Hafter as [|e after He _ IH]; intros st0 [Hid Hf].
  - simpl. by rewrite <- Hid at 2.
  - destruct e as [data|clicked]; [|done]. simpl. apply IH. split.
    + rewrite !status_update_reconcile. by rewrite detail_id_reconcile.
    + by apply panelFresh_reconcile.
Qed.

Lemma sidebar_follows_selected_seat_witness :
  let st := Push.run [Push.StatusUpdate (mkSnapshot "08:00:01" [("T1", CNumber 3)]);
                      Push.SeatClick "T1";
                      Push.StatusUpdate (mkSnapshot "08:00:02" [("T1", CNumber 1)])] in
  detail_id (page st) = "T1"
  ∧ log_list (page st) = renderLogList (currentSeatLogs st) "T1".
Proof.
  intros st.
  apply (sidebar_follows_selected_seat
           [Push.StatusUpdate (mkSnapshot "08:00:01" [("T1", CNumber 3)])]
           [Push.StatusUpdate (mkSnapshot "08:00:02" [("T1", CNumber 1)])] "T1").
  apply Forall_singleton. exact I.
Defined.

(** ** Invariants of the reachable states *)

(** A property of the state that holds initially and survives a
    reconciliation, a click and the seeding of the replay holds in every
    state the push page or the replay page can reach. *)
Section StateInvariant.
Variable Inv : State → Prop.
Hypothesis Inv_initial : Inv initialState.
Hypothesis Inv_reconcile :
  ∀ sep data st, Inv st → Inv (reconcileWith sep (processBackendData data) st).
Hypothesis Inv_click : ∀ seatId st, Inv st → Inv (showSeatDetails seatId st).
Hypothesis Inv_seed :
  ∀ data st, Inv st → Inv (commit (processBackendData data) st).

Lemma push_state_invariant (es : list Push.Event) : Inv (Push.run es).
Proof.
  unfold Push.run, Push.runWith.
  change (Push.handleWith toUpperCase) with Push.handle. apply (foldl_preserves Inv); [|exact Inv_initial].
  intros st [data|seatId] Hinv; simpl; auto. by apply Inv_reconcile.
Qed.


End StateInvariant.

Lemma heldNormal_normalized (data : Snapshot) (st : State) :
  currentSeats st = seatArray (processBackendData data) → heldNormal st.
Proof.
  intros Heq. unfold heldNormal. rewrite Heq. apply Forall_forall.
  intros seat. apply (seatArray_normal toUpperCase).
Qed.

Lemma push_heldNormal (es : list Push.Event) : heldNormal (Push.run es).
Proof.
  apply (push_state_invariant heldNormal).
  - constructor.
  - intros sep data st _. by apply (heldNormal_normalized data).
  - by intros.
Qed.





(** ** Where log entries come from *)

Lemma occupied_event_origin (st : State) (p : Processed) (e : TransitionEvent) :
  heldNormal st →
  e ∈ filter toOccupied (tickEvents p st) →
  ev_seat e ∈ id <$> seatArray p
  ∧ (ev_from e = "On-Hold" ∨ ev_from e = "Empty" ∨ inheritedStatus (ev_from e))
  ∧ (Forall (λ seat, knownStatus (status seat)) (currentSeats st) →
     ev_from e = "On-Hold" ∨ ev_from e = "Empty")
  ∧ eventEntry e = logEntry (p_timestamp p) (ev_from e) "Occupied".
Proof.
  intros Hnormal [Hocc He]%list_elem_of_filter.
  apply transitions_seat in He as (oldSeat & newSeat & Hin & Hf & Hne & ->).
  unfold toOccupied in Hocc. simpl in *.
  apply findSeat_Some in Hf as [Hold _].
  unfold heldNormal in Hnormal. rewrite Forall_forall in Hnormal.
  split_and!.
  - apply list_elem_of_fmap. by exists newSeat.
  - destruct (Hnormal _ Hold) as [[Ho|[Ho|Ho]]|Hi]; auto. congruence.
  - rewrite Forall_forall. intros Hknown.
    destruct (Hknown _ Hold) as [Ho|[Ho|Ho]]; auto. congruence.
  - unfold eventEntry. simpl. by rewrite Hocc.
Qed.

Lemma push_heldKnown_clean (es : list Push.Event) :
  Forall cleanUpdate es →
  Forall (λ seat, knownStatus (status seat)) (currentSeats (Push.run es)).
Proof.
  induction es as [|e es IH] using rev_ind; intros Hclean; [constructor|].
  apply Forall_app in Hclean as [Hes He].
  apply (Forall_singleton cleanUpdate) in He.
  unfold Push.run, Push.runWith.
  change (Push.handleWith toUpperCase) with Push.handle. rewrite foldl_snoc. change (foldl Push.handle initialState es) with (Push.run es).
  destruct e as [data|clicked]; [|by apply IH].
  change (currentSeats (Push.handle (Push.run es) (Push.StatusUpdate data)))
    with (seatArray (processBackendData data)).
  by apply (seatArray_known_clean toUpperCase).
Qed.

(** Every entry of every log on the push page was written by one of the
    pushed snapshots: the seat is in that snapshot's normalized list, the
    entry carries that snapshot's timestamp, and its message leads to
    Occupied from On-Hold, from Empty or from the text of an inherited
    member; when no code of any pushed snapshot names an inherited member,
    from On-Hold or from Empty. *)
Theorem log_entries_come_from_snapshots (es : list Push.Event)
    (seatId : string) (entry : LogEntry) :
  entry ∈ logsOf (currentSeatLogs (Push.run es)) seatId →
  ∃ (data : Snapshot) (oldStatus : Status),
    Push.StatusUpdate data ∈ es
    ∧ seatId ∈ id <$> seatArray (processBackendData data)
    ∧ (oldStatus = "On-Hold" ∨ oldStatus = "Empty" ∨ inheritedStatus oldStatus)
    ∧ (Forall cleanUpdate es → oldStatus = "On-Hold" ∨ oldStatus = "Empty")
    ∧ entry = logEntry (timestamp data) oldStatus "Occupied".
Proof.
  revert entry. induction es as [|e es IH] using rev_ind; intros entry.
  { by intros ?%not_elem_of_nil. }
  unfold Push.run, Push.runWith.
  change (Push.handleWith toUpperCase) with Push.handle. rewrite foldl_snoc. change (foldl Push.handle initialState es) with (Push.run es).
  assert (entry ∈ logsOf (currentSeatLogs (Push.run es)) seatId →
          ∃ (data : Snapshot) (oldStatus : Status),
            Push.StatusUpdate data ∈ es ++ [e]
            ∧ seatId ∈ id <$> seatArray (processBackendData data)
            ∧ (oldStatus = "On-Hold" ∨ oldStatus = "Empty"
               ∨ inheritedStatus oldStatus)
            ∧ (Forall cleanUpdate (es ++ [e]) →
               oldStatus = "On-Hold" ∨ oldStatus = "Empty")
            ∧ entry = logEntry (timestamp data) oldStatus "Occupied") as Hold.
  { intros (data & oldStatus & Hin & Hid & Hfrom & Hclean & Hentry)%IH.
    exists data, oldStatus. split_and!; try done.
    - apply elem_of_app. by left.
    - intros [Hes _]%Forall_app. by apply Hclean. }
  destruct e as [data|clicked]; [|exact Hold].
  change (Push.handle (Push.run es) (Push.StatusUpdate data))
    with (reconcile (processBackendData data) (Push.run es)).
  destruct (reconcile_log_contents (processBackendData data) (Push.run es)
              seatId) as [-> _].
  case_decide as Hnil; [exact Hold|].
  intros Hin%subseteq_take.
  apply elem_of_app in Hin as [Hnew|Hin]; [|by apply Hold].
  apply elem_of_reverse, list_elem_of_fmap in Hnew as (ev & -> & Hev).
  apply list_elem_of_filter in Hev as [Hseat Hev].
  destruct (occupied_event_origin _ _ _ (push_heldNormal es) Hev)
    as (Hid & Hfrom & Hclean & ->).
  exists data, (ev_from ev). split_and!; try done.
  - apply elem_of_app. right. apply list_elem_of_here.
  - by rewrite <- Hseat.
  - intros [Hes _]%Forall_app. by apply Hclean, push_heldKnown_clean.
Qed.

Lemma log_entries_come_from_snapshots_witness :
  let es := [Push.StatusUpdate (mkSnapshot "08:00:01" [("T1", CNumber 3)]);
             Push.StatusUpdate (mkSnapshot "08:00:02" [("T1", CNumber 1)])] in
  ∃ (data : Snapshot) (oldStatus : Status),
    Push.StatusUpdate data ∈ es
    ∧ "T1" ∈ id <$> seatArray (processBackendData data)
    ∧ (oldStatus = "On-Hold" ∨ oldStatus = "Empty" ∨ inheritedStatus oldStatus)
    ∧ (Forall cleanUpdate es → oldStatus = "On-Hold" ∨ oldStatus = "Empty")
    ∧ logEntry "08:00:02" "Empty" "Occupied"
      = logEntry (timestamp data) oldStatus "Occupied".
Proof.
  intros es.
  apply (log_entries_come_from_snapshots es "T1").
  vm_compute. apply list_elem_of_here.
Defined.

(** ** Snapshots without seats, seats that vanish *)

Lemma transitions_nil_held (new : list Seat) (timestamp : string) :
  transitions [] new timestamp = [].
Proof. apply omap_None. intros seat _. reflexivity. Qed.

Lemma reconcile_from_empty (sep : string) (p : Processed) (st : State) :
  currentSeats st = [] →
  currentSeatLogs (reconcileWith sep p st) = currentSeatLogs st.
Proof.
  intros Hempty. rewrite reconcile_events. unfold tickEvents.
  by rewrite Hempty, transitions_nil_held.
Qed.

(** A snapshot none of whose codes has a key that STATUS_MAP answers for,
    the empty one included, is still a tick: the held list becomes empty,
    the cards show four zeros and the log store is as before.  It also wipes
    what the detection compares with: whatever the next snapshot is, that
    next tick writes no log entry at all. *)
Theorem snapshot_without_valid_seats (data next : Snapshot) (st : State) :
  Forall (λ kv, ¬ validCode kv.2 ∧ ¬ inheritedCode kv.2) (status_codes data) →
  let st' := Push.status_update data st in
  currentSeats st' = []
  ∧ lastTimestamp st' = timestamp data
  ∧ currentSeatLogs st' = currentSeatLogs st
  ∧ cards (page st')
    = Some (mkSummary 0 0 0 0 ("Last Updated: " +:+ timestamp data))
  ∧ currentSeatLogs (Push.status_update next st') = currentSeatLogs st.
Proof.
  intros Hnone st'.
  assert (seatArray (processBackendData data) = []) as Hnil.
  { rewrite seatArray_omap. apply omap_None. intros kv Hin.
    rewrite Forall_forall in Hnone. destruct (Hnone kv Hin) as [Hv Hi].
    unfold normalizedEntryWith. by rewrite getProperty_other. }
  assert (currentSeats st' = []) as Hheld by exact Hnil.
  assert (currentSeatLogs st' = currentSeatLogs st) as Hlogs.
  { subst st'. rewrite status_update_reconcile.
    unfold reconcile, reconcileWith.
    by rewrite Hnil. }
  split_and!; try done.
  - change (cards (page st'))
      with (Some (updateSummaryCards (seatArray (processBackendData data))
                    (timestamp data))).
    by rewrite Hnil, summary_counts.
  - rewrite (status_update_reconcile next). unfold reconcile.
    by rewrite reconcile_from_empty.
Qed.

Lemma snapshot_without_valid_seats_witness :
  let st := Push.run [Push.StatusUpdate
                        (mkSnapshot "08:00:01" [("T1", CNumber 3)])] in
  let data := mkSnapshot "08:00:02" [("T1", CNumber 0); ("T2", CNull)] in
  let next := mkSnapshot "08:00:03" [("T1", CNumber 1)] in
  let st' := Push.status_update data st in
  currentSeats st' = []
  ∧ lastTimestamp st' = timestamp data
  ∧ currentSeatLogs st' = currentSeatLogs st
  ∧ cards (page st')
    = Some (mkSummary 0 0 0 0 ("Last Updated: " +:+ timestamp data))
  ∧ currentSeatLogs (Push.status_update next st') = currentSeatLogs st.
Proof.
  intros st data next.
  apply (snapshot_without_valid_seats data next st).
  apply (bool_decide_unpack _). vm_compute. exact I.
Defined.

(** A seat that is missing from one snapshot is forgotten: when it comes
    back in the next snapshot, with whatever status, its log is not
    touched. *)
Theorem vanished_seat_returns_unlogged (gap next : Snapshot) (st : State)
    (seatId : string) :
  seatId ∉ id <$> seatArray (processBackendData gap) →
  currentSeatLogs (Push.status_update next (Push.status_update gap st)) !! seatId
  = currentSeatLogs st !! seatId.
Proof.
  intros Habs.
  destruct (reconcile_first_appearance arrow (processBackendData next)
              (Push.status_update gap st) seatId Habs) as [_ Hnext].
  rewrite (status_update_reconcile next). unfold reconcile. rewrite Hnext.
  by apply reconcile_absent.
Qed.

Lemma vanished_seat_returns_unlogged_witness :
  let st := Push.run [Push.StatusUpdate
                        (mkSnapshot "08:00:01" [("T1", CNumber 3); ("T2", CNumber 3)])] in
  let gap := mkSnapshot "08:00:02" [("T2", CNumber 3)] in
  let next := mkSnapshot "08:00:03" [("T1", CNumber 1); ("T2", CNumber 3)] in
  currentSeatLogs (Push.status_update next (Push.status_update gap st)) !! "T1"
  = currentSeatLogs st !! "T1".
Proof.
  intros st gap next.
  apply (vanished_seat_returns_unlogged gap next st "T1").
  vm_compute. intros H. apply list_elem_of_singleton in H. discriminate.
Defined.

(** ** The static loader *)

Lemma seedLog_noop (timestamp : string) (store : gmap string (list LogEntry))
    (seat : Seat) :
  logsOf store (id seat) ≠ [] → Static.seedLog timestamp store seat = store.
Proof.
  unfold Static.seedLog, logsOf.
  destruct (store !! id seat) as [l|] eqn:E; simpl; [|done].
  rewrite E. simpl. intros Hne. case_bool_decide as Hlen; [|done].
  by destruct l.
Qed.

Lemma foldl_seedLog_noop (timestamp : string) (seats : list Seat)
    (store : gmap string (list LogEntry)) :
  (∀ seat, seat ∈ seats → logsOf store (id seat) ≠ []) →
  foldl (Static.seedLog timestamp) store seats = store.
Proof.
  induction seats as [|a seats IH]; intros Hne; [done|].
  simpl. rewrite seedLog_noop by (apply Hne; by left).
  apply IH. intros seat Hin. apply Hne. by right.
Qed.

Lemma foldl_seedLog_absent (timestamp : string) (seats : list Seat)
    (store : gmap string (list LogEntry)) (seatId : string) :
  seatId ∉ id <$> seats →
  logsOf (foldl (Static.seedLog timestamp) store seats) seatId
  = logsOf store seatId.
Proof.
  revert store. induction seats as [|a seats IH]; intros store Habs; [done|].
  rewrite fmap_cons, not_elem_of_cons in Habs. destruct Habs as [Hne Habs].
  simpl. rewrite IH by done. rewrite seedLog_logsOf.
  case_decide as Hd; [by destruct Hd|done].
Qed.

Lemma foldl_seedLog_cases (timestamp : string) (seats : list Seat)
    (store : gmap string (list LogEntry)) (seatId : string) :
  logsOf (foldl (Static.seedLog timestamp) store seats) seatId
  = logsOf store seatId
  ∨ (logsOf store seatId = []
     ∧ ∃ seat, seat ∈ seats ∧ id seat = seatId
         ∧ logsOf (foldl (Static.seedLog timestamp) store seats) seatId
           = [mkLog timestamp ("Status set to " +:+ statusText (status seat))]).
Proof.
  destruct (decide (logsOf store seatId = [])) as [Hemp|Hne].
  - destruct (decide (seatId ∈ id <$> seats)) as [Hin|Habs].
    + right. split; [done|]. by apply foldl_seedLog_seeded.
    + left. by apply foldl_seedLog_absent.
  - left. by apply foldl_seedLog_kept.
Qed.

(** The one-shot load of the static page only fills empty logs: the log of
    a seat afterwards is its old log, or, when that was empty and the seat
    is in the loaded list, the single entry that states its status.  So no
    log grows beyond one entry through the load. *)
Theorem static_load_only_fills_empty_logs (p : Processed) (st : State)
    (seatId : string) :
  let after := logsOf (currentSeatLogs (Static.initialLoad p st)) seatId in
  let before := logsOf (currentSeatLogs st) seatId in
  (after = before
   ∨ (before = []
      ∧ ∃ seat, seat ∈ seatArray p ∧ id seat = seatId
          ∧ after = [mkLog (p_timestamp p)
                       ("Status set to " +:+ statusText (status seat))]))
  ∧ length after ≤ max (length before) 1.
Proof.
  intros after before. subst after before. unfold Static.initialLoad. simpl.
  destruct (foldl_seedLog_cases (p_timestamp p) (seatArray p)
              (currentSeatLogs st) seatId) as [Heq|[Hemp (seat & Hin & Hid & Heq)]].
  - split; [by left|]. rewrite Heq. lia.
  - split; [right; split; [done|]; by exists seat|].
    rewrite Heq. simpl. lia.
Qed.

(** Loading the same normalized snapshot a second time changes nothing. *)
Theorem static_load_is_idempotent (p : Processed) (st : State) :
  Static.initialLoad p (Static.initialLoad p st) = Static.initialLoad p st.
Proof.
  unfold Static.initialLoad. simpl. f_equal.
  apply foldl_seedLog_noop. intros seat Hin.
  destruct (foldl_seedLog_cases (p_timestamp p) (seatArray p)
              (currentSeatLogs st) (id seat))
    as [Heq|[Hemp (seat' & _ & _ & Heq)]].
  - rewrite Heq. intros Hemp.
    destruct (foldl_seedLog_seeded (p_timestamp p) (seatArray p)
                (currentSeatLogs st) (id seat) Hemp) as (seat' & _ & _ & Hs).
    { apply list_elem_of_fmap. by exists seat. }
    rewrite Heq, Hemp in Hs. discriminate.
  - by rewrite Heq.
Qed.

(** ** Replay of short lists *)

Lemma replay_nil (n : nat) : Replay.replay [] n = Replay.initialSim.
Proof.
  unfold Replay.replay, Replay.ticks. induction n as [|n IH]; [done|].
  simpl Nat.iter. rewrite IH. reflexivity.
Qed.

(** An empty frame list never starts the timer and the page stays as it was
    loaded.  A list of one frame is shown once; the cursor is then past the
    end, every firing of the timer fails on the missing frame, and the state
    never changes again. *)
Theorem replay_of_short_lists (frame : Snapshot) (n : nat) :
  Replay.replay [] n = Replay.initialSim
  ∧ Replay.replay [frame] n
    = Replay.mkSim (commit (processBackendData frame) initialState) [frame] 1 true
  ∧ Replay.runUpdateStep (Replay.replay [frame] n) = None.
Proof.
  destruct (replay_single_frame_stuck frame n) as (Hone & _ & Hfail).
  split_and!; [apply replay_nil| |exact Hfail].
  rewrite Hone. apply load_nonempty.
Qed.

(** ** Seat ids are compared without regard to case *)

Lemma omap_normalizedEntry_case (codes1 codes2 : list (string * Code)) :
  Forall2 (λ a b, toUpperCase a.1 = toUpperCase b.1 ∧ a.2 = b.2) codes1 codes2 →
  omap (normalizedEntryWith toUpperCase) codes1 = omap (normalizedEntryWith toUpperCase) codes2.
Proof.
  induction 1 as [|[k1 c1] [k2 c2] l1 l2 [Hk Hc] _ IH]; [done|].
  simpl in Hk, Hc. subst c2.
  change (omap (normalizedEntryWith toUpperCase) ((k1, c1) :: l1))
    with (match normalizedEntryWith toUpperCase (k1, c1) with
          | Some seat => seat :: omap (normalizedEntryWith toUpperCase) l1
          | None => omap (normalizedEntryWith toUpperCase) l1
          end).
  change (omap (normalizedEntryWith toUpperCase) ((k2, c1) :: l2))
    with (match normalizedEntryWith toUpperCase (k2, c1) with
          | Some seat => seat :: omap (normalizedEntryWith toUpperCase) l2
          | None => omap (normalizedEntryWith toUpperCase) l2
          end).
  rewrite IH.
  assert (normalizedEntryWith toUpperCase (k1, c1) = normalizedEntryWith toUpperCase (k2, c1)) as ->
    by (unfold normalizedEntryWith; simpl; by rewrite Hk).
  reflexivity.
Qed.

(** Two snapshots with the same timestamp whose entries, in order, have the
    same codes and keys that differ only in the case of their letters are
    normalized to the same result, and so are the same tick. *)
Theorem seat_ids_are_case_insensitive (raw1 raw2 : Snapshot) (st : State) :
  timestamp raw1 = timestamp raw2 →
  Forall2 (λ a b, toUpperCase a.1 = toUpperCase b.1 ∧ a.2 = b.2)
    (status_codes raw1) (status_codes raw2) →
  processBackendData raw1 = processBackendData raw2
  ∧ Push.status_update raw1 st = Push.status_update raw2 st.
Proof.
  intros Hts Hcodes.
  assert (processBackendData raw1 = processBackendData raw2) as Heq.
  { unfold processBackendData, processBackendDataWith. simpl.
    by rewrite !foldl_pushSeatWith, (omap_normalizedEntry_case _ _ Hcodes),
      Hts. }
  split; [exact Heq|]. rewrite !status_update_reconcile. by rewrite Heq.
Qed.

Lemma seat_ids_are_case_insensitive_witness :
  let raw1 := mkSnapshot "08:00:01" [("t1", CNumber 1); ("T2", CNumber 3)] in
  let raw2 := mkSnapshot "08:00:01" [("T1", CNumber 1); ("t2", CNumber 3)] in
  processBackendData raw1 = processBackendData raw2
  ∧ Push.status_update raw1 initialState = Push.status_update raw2 initialState.
Proof.
  intros raw1 raw2.
  apply (seat_ids_are_case_insensitive raw1 raw2 initialState);
    [reflexivity|].
  repeat constructor.
Defined.

(** ** The socket client *)

Lemma toLowerCase_app (s1 s2 : string) :
  toLowerCase (s1 +:+ s2) = toLowerCase s1 +:+ toLowerCase s2.
Proof. induction s1 as [|c s1 IH]; simpl; [done|]. by rewrite IH. Qed.

Lemma toLowerCase_split (s a b : string) :
  toLowerCase s = a +:+ b →
  ∃ s1 s2, s = s1 +:+ s2 ∧ toLowerCase s1 = a ∧ toLowerCase s2 = b.
Proof.
  revert s. induction a as [|c a IH]; intros s Heq.
  - by exists "", s.
  - destruct s as [|c' s]; [done|]. simpl in Heq. injection Heq as Hc Hs.
    destruct (IH s Hs) as (s1 & s2 & -> & <- & <-).
    exists (String c' s1), s2. simpl. by rewrite Hc.
Qed.

Lemma startsWith_spec (s sub : string) :
  startsWith s sub = true ↔ ∃ post, s = sub +:+ post.
Proof.
  revert s. induction sub as [|a sub IH]; intros s.
  - split; [by exists s|]. intros _. by destruct s.
  - destruct s as [|b s]; simpl.
    + split; [done|by intros [post ?]].
    + rewrite andb_true_iff, bool_decide_eq_true, IH. split.
      * intros [-> [post ->]]. by exists post.
      * intros [post [= -> ->]]. split; [done|by exists post].
Qed.

Lemma includes_spec (s sub : string) :
  includes s sub = true ↔ ∃ pre post, s = pre +:+ sub +:+ post.
Proof.
  induction s as [|c s IH].
  - change (includes "" sub) with (startsWith "" sub || false).
    rewrite orb_false_r, startsWith_spec. split.
    + intros [post ->]. by exists "", post.
    + intros (pre & post & Heq). destruct pre; [by exists post|done].
  - change (includes (String c s) sub)
      with (startsWith (String c s) sub || includes s sub).
    rewrite orb_true_iff, startsWith_spec, IH. split.
    + intros [[post ->]|(pre & post & ->)].
      * by exists "", post.
      * by exists (String c pre), post.
    + intros (pre & post & Heq). destruct pre as [|c' pre].
      * left. by exists post.
      * right. simpl in Heq. injection Heq as -> ->. by exists pre, post.
Qed.

Lemma includes_lower_mentions (message phrase : string) :
  includes (toLowerCase message) phrase = true ↔ mentions message phrase.
Proof.
  rewrite includes_spec. unfold mentions. split.
  - intros (pre & post & Heq).
    apply toLowerCase_split in Heq as (s1 & rest & -> & _ & Hrest).
    apply toLowerCase_split in Hrest as (w & s3 & -> & Hw & _).
    by exists s1, w, s3.
  - intros (pre & w & post & -> & <-).
    exists (toLowerCase pre), (toLowerCase post).
    by rewrite !toLowerCase_app.
Qed.

(** An error from the server raises one alert, Error: and the message,
    unless the message mentions already running in any mix of upper and
    lower case; then nothing on the page changes.  Neither case touches the
    reconciliation state. *)
Theorem server_error_alert_rule (c : Client.Session) (message : string) :
  let c' := Client.handle c (Client.ServerError message) in
  ((mentions message "already running" ∧ c' = c)
   ∨ (¬ mentions message "already running"
      ∧ Client.alerts c' = Client.alerts c ++ ["Error: " +:+ message]))
  ∧ Client.core c' = Client.core c
  ∧ Client.statusText c' = Client.statusText c
  ∧ Client.emitted c' = Client.emitted c.
Proof.
  intros c'. subst c'. simpl.
  destruct (includes (toLowerCase message) "already running") eqn:E; simpl.
  - apply includes_lower_mentions in E. split; [by left|done].
  - split; [right; split; [|done]|done].
    intros Hm%includes_lower_mentions. congruence.
Qed.

Lemma client_core_from (es : list Client.Event) (c : Client.Session) :
  Client.core (foldl Client.handle c es)
  = foldl Push.handle (Client.core c) (omap Client.toPush es).
Proof.
  revert c. induction es as [|e es IH]; intros c; [done|].
  cbn [foldl]. rewrite IH.
  change (omap Client.toPush (e :: es))
    with (match Client.toPush e with
          | Some e' => e' :: omap Client.toPush es
          | None => omap Client.toPush es
          end).
  destruct e; try reflexivity.
  simpl. by destruct (negb _).
Qed.

Lemma client_emitted_from (es : list Client.Event) (c : Client.Session) :
  Client.emitted (foldl Client.handle c es)
  = Client.emitted c ++ ((λ _, "start_detection") <$> filter isConnect es).
Proof.
  revert c. induction es as [|e es IH]; intros c.
  - simpl. by rewrite app_nil_r.
  - cbn [foldl]. rewrite IH, filter_cons.
    destruct e; simpl; try reflexivity.
    + by rewrite <- app_assoc.
    + by destruct (negb _).
Qed.

(** Connection and error events never reach the reconciliation: the state
    of the whole client is that of the push handler run on the snapshots and
    clicks alone.  The only message the client sends is start_detection,
    once for every connect. *)
Theorem connection_events_leave_reconciliation_alone (es : list Client.Event) :
  Client.core (Client.run es) = Push.run (omap Client.toPush es)
  ∧ Client.emitted (Client.run es)
    = (λ _, "start_detection") <$> filter isConnect es.
Proof.
  unfold Client.run, Push.run, Push.runWith.
  change (Push.handleWith toUpperCase) with Push.handle. split.
  - apply client_core_from.
  - by rewrite client_emitted_from.
Qed.

(** The status line never shows an old time: whenever the script has written
    it, it ends in Last Updated: followed by the timestamp of the latest
    snapshot received, with or without a connection notice in front. *)
Theorem status_line_shows_latest_timestamp (es : list Client.Event) :
  let c := Client.run es in
  Client.statusText c = None
  ∨ Client.statusText c
    = Some ("Last Updated: " +:+ lastTimestamp (Client.core c))
  ∨ ∃ message isConnected,
      Client.statusText c
      = Some ((if isConnected : bool then "🟢" else "🔴") +:+ " " +:+ message
                +:+ " | Last Updated: " +:+ lastTimestamp (Client.core c)).
Proof.
  intros c. subst c. unfold Client.run.
  apply (foldl_preserves
           (λ c, Client.statusText c = None
                 ∨ Client.statusText c
                   = Some ("Last Updated: " +:+ lastTimestamp (Client.core c))
                 ∨ ∃ message isConnected,
                     Client.statusText c
                     = Some ((if isConnected : bool then "🟢" else "🔴")
                               +:+ " " +:+ message +:+ " | Last Updated: "
                               +:+ lastTimestamp (Client.core c))));
    [|by left].
  intros c e Hinv. destruct e; simpl; try exact Hinv.
  - right. right. by exists "Connected", true.
  - right. right. by exists "Disconnected", false.
  - right. right. by exists "Detection Active", true.
  - right. right. by exists "Detection Stopped", false.
  - by destruct (negb _).
  - right. left. reflexivity.
Qed.

(** What the sidebar shows for a seat, in any state of the push page: the
    empty-history placeholder exactly when the seat has no entries, and
    otherwise the whole log of the seat, which has one to five entries. *)
Theorem sidebar_shows_whole_log (es : list Push.Event) (seatId : string) :
  let logs := logsOf (currentSeatLogs (Push.run es)) seatId in
  let shown := renderLogList (currentSeatLogs (Push.run es)) seatId in
  (logs = [] ∧ shown = NoHistory)
  ∨ (1 ≤ length logs ≤ 5 ∧ shown = Entries logs).
Proof.
  intros logs shown. subst shown. unfold renderLogList. fold logs.
  pose proof (logBounded_logsOf _ seatId (push_run_bounded es)) as Hb.
  fold logs in Hb. case_bool_decide as Hlen.
  - left. split; [|done]. by apply nil_length_inv.
  - right. split; [lia|done].
Qed.

